(** * Frame cadence and track management of the object-detection backend

    A shallow embedding of [backend/app/services/tracker.py] (class
    [ByteTrack]) and of the streaming loop of
    [backend/app/routes/stream.py] ([websocket_endpoint]), followed by the
    properties of the tracker and of the per-frame cycle.

    Python integers are unbounded, so they are [Z].  A Python [dict] keeps
    its keys in insertion order and the loop bodies below depend on that
    order, so [self.tracks] is an association list.  The track dictionaries
    are shared between [self.tracks] and the list that [update] returns, so
    they live in an explicit object store and both places hold addresses. *)

From Stdlib Require Import ZArith QArith List Lia Sorted.
From stdpp Require Import base option list strings pretty.
Import ListNotations.

Local Open Scope Z_scope.

(** ** Insertion-ordered dictionaries with integer keys *)

Module PyDict.
Section Dict.
Context {V : Type}.

Definition t : Type := list (Z * V).

  (** [d[k] = v]: an existing key keeps its position, a new key goes last. *)
Fixpoint setitem (k : Z) (v : V) (d : t) : t :=
    match d with
    | [] => [(k, v)]
    | (k', v') :: rest =>
        if k =? k' then (k, v) :: rest else (k', v') :: setitem k v rest
    end.

  (** [del d[k]].  Python raises [KeyError] for a missing key; here the
      dictionary is returned as it is, and [remove_keys_present]
      shows that [update] only deletes keys that are present. *)
Fixpoint delitem (k : Z) (d : t) : t :=
    match d with
    | [] => []
    | (k', v') :: rest =>
        if k =? k' then rest else (k', v') :: delitem k rest
    end.

Definition keys (d : t) : list Z := map fst d.
Definition values (d : t) : list V := map snd d.
Definition items (d : t) : list (Z * V) := d.
End Dict.
Arguments t : clear implicits.
End PyDict.

(** ** Detections and tracks *)

(** One element of the list built by [ObjectDetector.detect]: ["box"] is a
    list of integers, ["confidence"] a number that the tracker only copies,
    ["class"] a label. *)
Record Detection : Type := mkDetection {
  det_box : list Z;
  det_confidence : Q;
  det_class : string
}.

(** The dictionary [track_info] of [ByteTrack.update]. *)
Record Track : Type := mkTrack {
  track_id : Z;
  track_box : list Z;
  track_class : string;
  track_confidence : Q;
  last_seen : Z
}.

(** [track["last_seen"] += 1] *)
Definition bump (tr : Track) : Track :=
  mkTrack (track_id tr) (track_box tr) (track_class tr) (track_confidence tr)
          (last_seen tr + 1).

(** Address of a track dictionary in the object store. *)
Abbreviation addr := nat.

(** ** The tracker *)

(** [objs] is the part of the Python heap that holds the track dictionaries
    created so far; a dictionary that is deleted from [tracks] stays in the
    store, because a list returned earlier may still refer to it.  The
    [history] deque is created by [__init__] and never touched again; it
    only matters for the constructor. *)
Record ByteTrack : Type := mkByteTrack {
  objs : list Track;
  tracks : PyDict.t addr;
  next_id : Z;
  buffer_size : Z
}.

(** [__init__]: [deque(maxlen=buffer_size)] raises [ValueError] for a
    negative [buffer_size], so no tracker exists with one.  It also raises
    [OverflowError] for a [buffer_size] beyond the range of a C [ssize_t];
    these sizes are not excluded here, which only adds trackers to the ones
    that can be constructed. *)
Definition init (buffer_size : Z) : option ByteTrack :=
  if buffer_size <? 0 then None
  else Some (mkByteTrack [] [] 0 buffer_size).

Definition new_track (id : Z) (det : Detection) : Track :=
  mkTrack id (det_box det) (det_class det) (det_confidence det) 0.

(** Body of the loop [for det in detections] (lines 51-66); the second
    component is [updated_tracks]. *)
Definition spawn (acc : ByteTrack * list addr) (det : Detection)
  : ByteTrack * list addr :=
  let self := fst acc in
  let id := next_id self in
  let a := length (objs self) in
  (mkByteTrack (objs self ++ [new_track id det])
               (PyDict.setitem id a (tracks self))
               (id + 1)
               (buffer_size self),
   snd acc ++ [a]).

(** Body of the loop over [self.tracks.items()] (lines 70-73); the second
    component is [tracks_to_remove]. *)
Definition age_step (bs : Z) (acc : list Track * list Z) (item : Z * addr)
  : list Track * list Z :=
  let h := alter bump (snd item) (fst acc) in
  match h !! snd item with
  | Some tr =>
      if bs <? last_seen tr then (h, snd acc ++ [fst item])
      else (h, snd acc)
  | None => (h, snd acc)
  end.

(** The loop [for track_id in tracks_to_remove] (lines 75-77). *)
Definition remove_keys (to_remove : list Z) (d : PyDict.t addr) : PyDict.t addr :=
  fold_left (fun d k => PyDict.delitem k d) to_remove d.

(** [update(detections)]: returns [updated_tracks] and the tracker after
    the call. *)
Definition update (self : ByteTrack) (detections : list Detection)
  : list addr * ByteTrack :=
  let '(s1, updated_tracks) := fold_left spawn detections (self, []) in
  let '(h, tracks_to_remove) :=
    fold_left (age_step (buffer_size s1)) (PyDict.items (tracks s1)) (objs s1, []) in
  (updated_tracks,
   mkByteTrack h (remove_keys tracks_to_remove (tracks s1))
               (next_id s1) (buffer_size s1)).

(** [get_active_tracks()]: [list(self.tracks.values())]; the tracker is
    not modified. *)
Definition get_active_tracks (self : ByteTrack) : list addr :=
  PyDict.values (tracks self).

(** What a caller reads from a list of track dictionaries while the
    tracker is in state [self]. *)
Definition view (self : ByteTrack) (l : list addr) : list Track :=
  omap (fun a => objs self !! a) l.

(** The tracks held by [self.tracks], in dictionary order. *)
Definition live (self : ByteTrack) : list Track :=
  view self (PyDict.values (tracks self)).

(** *** Sequences of calls *)

Inductive Call : Type :=
| Update (detections : list Detection)
| GetActiveTracks.

Definition exec (self : ByteTrack) (c : Call) : list addr * ByteTrack :=
  match c with
  | Update detections => update self detections
  | GetActiveTracks => (get_active_tracks self, self)
  end.

(** The states a tracker goes through after its construction. *)
Inductive reachable : ByteTrack -> Prop :=
| reach_init bs self : init bs = Some self -> reachable self
| reach_exec self c : reachable self -> reachable (snd (exec self c)).


(** The ids handed out by a sequence of calls, in the order of
    assignment.  The tracks a call creates are the ones it returns. *)
Fixpoint assigned_ids (self : ByteTrack) (cs : list Call) : list Z :=
  match cs with
  | [] => []
  | GetActiveTracks :: rest => assigned_ids self rest
  | Update detections :: rest =>
      let r := update self detections in
      map track_id (view (snd r) (fst r)) ++ assigned_ids (snd r) rest
  end.

(** ** The streaming loop *)

(** [a % b] of Python: the sign follows the divisor as with [Z.modulo],
    and a zero divisor raises [ZeroDivisionError]. *)
Definition py_mod (a b : Z) : option Z :=
  if b =? 0 then None else Some (a mod b).

(** The condition [frame_count % config.DETECTOR_FRAME_INTERVAL == 0]. *)
Definition should_run_detector (frame_count interval : Z) : option bool :=
  option_map (fun r => r =? 0) (py_mod frame_count interval).

(** Result of drawing, encoding and [send_bytes]. *)
Inductive Send : Type :=
| SendOk
| SendDisconnect
| SendRaises.

(** What the outside world does in one turn of the [while True] loop:
    the websocket, the decoding of the payload, the detector (should it be
    called: [None] stands for an exception) and the sending stage. *)
Inductive Input : Type :=
| RecvDisconnect
| RecvRaises
| Undecodable (raised : bool)
| Frame (detect : option (list Detection)) (send : Send).

Inductive Status : Type :=
| Streaming
| Disconnected
| Failed.

Inductive Collaborator : Type :=
| CallDetect
| CallUpdate
| CallGetActiveTracks.

(** [tracker] is the module-level singleton of [tracker.py]. *)
Record Session : Type := mkSession {
  frame_count : Z;
  tracker : ByteTrack
}.

Record Outcome : Type := mkOutcome {
  session : Session;
  status : Status;
  called : list Collaborator;
  sent : option (list Detection * list Track)
}.

(** Lines 67-73: an exception here reaches one of the two handlers that
    follow the loop. *)
Definition finish (send : Send) (s : Session) (called : list Collaborator)
           (detections : list Detection) (tracks : list Track) : Outcome :=
  match send with
  | SendOk => mkOutcome s Streaming called (Some (detections, tracks))
  | SendDisconnect => mkOutcome s Disconnected called None
  | SendRaises => mkOutcome s Failed called None
  end.

(** One turn of the loop of [websocket_endpoint] (lines 33-87). *)
Definition cycle (interval : Z) (s : Session) (i : Input) : Outcome :=
  match i with
  | RecvDisconnect => mkOutcome s Disconnected [] None
  | RecvRaises => mkOutcome s Failed [] None
  | Undecodable _ => mkOutcome s Streaming [] None
  | Frame detect send =>
      let fc := frame_count s + 1 in
      match should_run_detector fc interval with
      | None => mkOutcome (mkSession fc (tracker s)) Failed [] None
      | Some true =>
          match detect with
          | None => mkOutcome (mkSession fc (tracker s)) Failed [CallDetect] None
          | Some detections =>
              let r := update (tracker s) detections in
              finish send (mkSession fc (snd r)) [CallDetect; CallUpdate]
                     detections (view (snd r) (fst r))
          end
      | Some false =>
          finish send (mkSession fc (tracker s)) [CallGetActiveTracks]
                 [] (view (tracker s) (get_active_tracks (tracker s)))
      end
  end.

(** The loop: turns are taken while the session is streaming; the inputs
    after the turn that ends it are never received. *)
Fixpoint serve (interval : Z) (s : Session) (inputs : list Input) : list Outcome :=
  match inputs with
  | [] => []
  | i :: rest =>
      let o := cycle interval s i in
      o :: match status o with
           | Streaming => serve interval (session o) rest
           | Disconnected | Failed => []
           end
  end.



(** ** Sample data *)

Definition d0 : Detection := mkDetection [10; 10; 50; 50] (9 # 10) "person".
Definition d1 : Detection := mkDetection [60; 60; 100; 100] (8 # 10) "bicycle".
Definition fresh30 : ByteTrack := mkByteTrack [] [] 0 30.
Definition fresh0 : ByteTrack := mkByteTrack [] [] 0 0.

(** The tracker after [update([d0])] on a new tracker with the default
    buffer size. *)
Definition one_track : ByteTrack := snd (update fresh30 [d0]).

(** A tracker of buffer size 30 that holds one track of age 0. *)
Definition scenario_D : ByteTrack :=
  mkByteTrack [mkTrack 0 [10; 10; 50; 50] "person" (9 # 10) 0] [(0, 0%nat)] 1 30.

(** ** Auxiliary functions of the proofs *)

(** The store after line 71 has run for each of the addresses [addrs]. *)
Definition bump_all (addrs : list addr) (h : list Track) : list Track :=
  fold_left (fun h a => alter bump a h) addrs h.

(** The test of line 72 for an item, read off the store as it is before
    the aging loop starts. *)
Definition stale (bs : Z) (h : list Track) (item : Z * addr) : bool :=
  match h !! snd item with
  | Some tr => bs <? last_seen tr + 1
  | None => false
  end.

(** The dictionaries and the items that the first loop of [update] makes
    for [detections], starting from id [n] and address [a]. *)
Fixpoint fresh_tracks (n : Z) (detections : list Detection) : list Track :=
  match detections with
  | [] => []
  | det :: rest => new_track n det :: fresh_tracks (n + 1) rest
  end.

Fixpoint fresh_items (n : Z) (a : addr) (detections : list Detection)
  : list (Z * addr) :=
  match detections with
  | [] => []
  | _ :: rest => (n, a) :: fresh_items (n + 1) (S a) rest
  end.

(** The third loop of [update] with the [KeyError] of [del] written out. *)
Fixpoint remove_keys_checked (to_remove : list Z) (d : PyDict.t addr)
  : option (PyDict.t addr) :=
  match to_remove with
  | [] => Some d
  | k :: rest =>
      if existsb (Z.eqb k) (PyDict.keys d)
      then remove_keys_checked rest (PyDict.delitem k d)
      else None
  end.

(** The state invariant of the tracker: ids are handed out in the order
    of the store, the dictionary is keyed by the id of the track it holds,
    keys ascend, and a track in the dictionary has been aged at least once
    and at most [buffer_size] times since it was created. *)
Record wf (self : ByteTrack) : Prop := mk_wf {
  wf_buffer : 0 <= buffer_size self;
  wf_next : next_id self = Z.of_nat (length (objs self));
  wf_ids : forall a tr, objs self !! a = Some tr -> track_id tr = Z.of_nat a;
  wf_items : forall k a, In (k, a) (tracks self) ->
             k = Z.of_nat a /\ (a < length (objs self))%nat;
  wf_sorted : StronglySorted Z.lt (PyDict.keys (tracks self));
  wf_age : forall k a tr, In (k, a) (tracks self) -> objs self !! a = Some tr ->
           1 <= last_seen tr <= buffer_size self
}.

(** The tracker after a sequence of calls, and what the sequence holds. *)
Definition run (self : ByteTrack) (cs : list Call) : ByteTrack :=
  fold_left (fun s c => snd (exec s c)) cs self.

Fixpoint updates_in (cs : list Call) : Z :=
  match cs with
  | [] => 0
  | Update _ :: rest => 1 + updates_in rest
  | GetActiveTracks :: rest => updates_in rest
  end.

Fixpoint detections_in (cs : list Call) : Z :=
  match cs with
  | [] => 0
  | Update detections :: rest => Z.of_nat (length detections) + detections_in rest
  | GetActiveTracks :: rest => detections_in rest
  end.

(** The age stored for an item of the dictionary. *)
Definition item_age (h : list Track) (item : Z * addr) : Z :=
  match h !! snd item with
  | Some tr => last_seen tr
  | None => 0
  end.

(** A track under another id, and the tracks of a list that were made
    from id [n] on. *)
Definition shift_id (delta : Z) (tr : Track) : Track :=
  mkTrack (track_id tr + delta) (track_box tr) (track_class tr)
          (track_confidence tr) (last_seen tr).

Definition since (n : Z) (l : list Track) : list Track :=
  List.filter (fun tr => n <=? track_id tr) l.


(** The number of inputs that carry a frame that decodes. *)
Fixpoint frames_in (inputs : list Input) : Z :=
  match inputs with
  | [] => 0
  | Frame _ _ :: rest => 1 + frames_in rest
  | _ :: rest => frames_in rest
  end.

(** ** Drawing ([utils.draw_boxes]) *)

(** The calls made on the frame: [cv2.rectangle(frame, p1, p2, color, 2)]
    and [cv2.putText(frame, text, org, FONT_HERSHEY_SIMPLEX, 0.5, color, 2)]. *)
Inductive DrawOp : Type :=
| Rectangle (p1 p2 : Z * Z) (color : Z * Z * Z) (thickness : Z)
| PutText (text : string) (org : Z * Z) (color : Z * Z * Z) (thickness : Z).

(** [x1, y1, x2, y2 = box]: [ValueError] unless the list has four items. *)
Definition unpack4 (box : list Z) : option (Z * Z * Z * Z) :=
  match box with
  | [x1; y1; x2; y2] => Some (x1, y1, x2, y2)
  | _ => None
  end.

(** [str(n)] for an integer, as in [f"ID: {track_id}"]. *)
Definition py_str (n : Z) : string := pretty n.

(** The points whose coordinates both fit a C int. *)
Definition fits_c_int (x : Z) : bool := (- 2 ^ 31 <=? x) && (x <? 2 ^ 31).

Definition c_int_point (p : Z * Z) : bool :=
  fits_c_int (fst p) && fits_c_int (snd p).

Section Drawing.

(** The format [{confidence:.2f}] of a float; the drawing code only places
    its result in the label. *)
Variable format_2f : Q -> string.

(** Whether OpenCV takes a point.  The drawing functions belong to the
    OpenCV binding, not to this repository: they raise for a point that the
    binding cannot convert, which is a point with a coordinate outside the
    range of a C int ([c_int_point]). *)
Variable point_ok : Z * Z -> bool.

(** [cv2.rectangle(frame, p1, p2, color, thickness)] and
    [cv2.putText(frame, text, org, FONT_HERSHEY_SIMPLEX, 0.5, color,
    thickness)]: the call made on the frame, or [None] when the call
    raises. *)
Definition cv2_rectangle (p1 p2 : Z * Z) (color : Z * Z * Z) (thickness : Z)
  : option DrawOp :=
  if point_ok p1 && point_ok p2 then Some (Rectangle p1 p2 color thickness)
  else None.

Definition cv2_putText (text : string) (org : Z * Z) (color : Z * Z * Z)
           (thickness : Z) : option DrawOp :=
  if point_ok org then Some (PutText text org color thickness) else None.

(** Body of the loop over [detections] (lines 37-45). *)
Definition draw_detection (det : Detection) : option (list DrawOp) :=
  match unpack4 (det_box det) with
  | None => None
  | Some (x1, y1, x2, y2) =>
      let color := (0, 255, 0) in
      let text := det_class det +:+ ": " +:+ format_2f (det_confidence det) in
      match cv2_rectangle (x1, y1) (x2, y2) color 2 with
      | None => None
      | Some rect =>
          match cv2_putText text (x1, y1 - 10) color 2 with
          | None => None
          | Some label => Some [rect; label]
          end
      end
  end.

(** Body of the loop over [tracks] (lines 49-57). *)
Definition draw_track (tr : Track) : option (list DrawOp) :=
  match unpack4 (track_box tr) with
  | None => None
  | Some (x1, y1, x2, y2) =>
      let color := (255, 0, 0) in
      let text := "ID: " +:+ py_str (track_id tr) +:+ " " +:+ track_class tr in
      match cv2_rectangle (x1, y1) (x2, y2) color 2 with
      | None => None
      | Some rect =>
          match cv2_putText text (x1, y1 - 10) color 2 with
          | None => None
          | Some label => Some [rect; label]
          end
      end
  end.

(** A [for] loop whose body may raise: the calls made so far, or [None]
    when the body raised. *)
Fixpoint draw_each {A : Type} (body : A -> option (list DrawOp)) (l : list A)
  : option (list DrawOp) :=
  match l with
  | [] => Some []
  | x :: rest =>
      match body x with
      | None => None
      | Some ops =>
          match draw_each body rest with
          | None => None
          | Some ops' => Some (ops ++ ops')
          end
      end
  end.

(** [draw_boxes(frame, detections, tracks=None)]: the calls made on the
    frame, or [None] when the function raises: the [ValueError] of an
    unpacking or the error of a drawing call.  [if tracks:] skips the
    second loop for [None] and for the empty list. *)
Definition draw_boxes (detections : list Detection) (tracks : option (list Track))
  : option (list DrawOp) :=
  match draw_each draw_detection detections with
  | None => None
  | Some ops =>
      match tracks with
      | None | Some [] => Some ops
      | Some trs =>
          match draw_each draw_track trs with
          | None => None
          | Some ops' => Some (ops ++ ops')
          end
      end
  end.

(** The boxes that the two loop bodies can draw: four coordinates, and
    OpenCV takes the two corners and the place of the label. *)
Definition drawable (box : list Z) : bool :=
  match unpack4 box with
  | Some (x1, y1, x2, y2) =>
      point_ok (x1, y1) && point_ok (x2, y2) && point_ok (x1, y1 - 10)
  | None => false
  end.

End Drawing.

(** ** The upload route ([routes/detect.py]) *)

(** The exceptions of [detect_image]; both classes derive from
    [Exception]. *)
Inductive Raised : Type :=
| HTTPException (status_code : Z)
| OtherException.

(** What the upload is: reading it raises, or it does not decode to an
    image, or it does and the detector returns a list or raises. *)
Inductive Upload : Type :=
| ReadRaises
| NotAnImage
| Image (detect : option (list Detection)).

(** The body of the [try] (lines 34-46). *)
Definition detect_image_body (u : Upload) : Raised + list Detection :=
  match u with
  | ReadRaises => inl OtherException
  | NotAnImage => inl (HTTPException 400)
  | Image None => inl OtherException
  | Image (Some detections) => inr detections
  end.

(** [detect_image]: [except Exception] catches whatever the body raises
    and raises [HTTPException(status_code=500)]. *)
Definition detect_image (u : Upload) : Raised + list Detection :=
  match detect_image_body u with
  | inr detections => inr detections
  | inl (HTTPException _) | inl OtherException => inl (HTTPException 500)
  end.

(** ** Class names of the training set ([services/retrain.py]) *)

(** [enumerate(l)], counting from [n]. *)
Fixpoint enumerate_from {A : Type} (n : Z) (l : list A) : list (Z * A) :=
  match l with
  | [] => []
  | x :: rest => (n, x) :: enumerate_from (n + 1) rest
  end.

(** Line 108: [{i: name for i, name in enumerate(class_names)}]. *)
Definition dataset_names (class_names : list string) : PyDict.t string :=
  fold_left (fun d item => PyDict.setitem (fst item) (snd item) d)
            (enumerate_from 0 class_names) [].

(** Line 161: [list(detector.model.names.values()) if detector.model else []]. *)
Definition class_names_of (names : option (PyDict.t string)) : list string :=
  match names with
  | Some d => PyDict.values d
  | None => []
  end.

(** ** Frame collection ([scripts/collect_frames.py]) *)

(** The loop of [collect_frames] (lines 39-60).  [reads] holds, for each
    frame that [cap.read()] delivers, whether the key q is down when
    [cv2.waitKey] is asked; after them [cap.read()] reports the end of the
    stream.  [saved] lists the values of [frame_count] of the frames
    handed to [cv2.imwrite] so far, so [saved_frame_count] is its length.
    The second component tells whether [frame_count % interval] raised;
    the calls into OpenCV are taken to return. *)
Fixpoint collect_loop (interval max_frames : Z) (reads : list bool)
         (frame_count : Z) (saved : list Z) : list Z * bool :=
  match reads with
  | [] => (saved, false)
  | quit :: rest =>
      let frame_count := frame_count + 1 in
      match py_mod frame_count interval with
      | None => (saved, true)
      | Some r =>
          if r =? 0 then
            let saved := saved ++ [frame_count] in
            if (0 <? max_frames) && (max_frames <=? Z.of_nat (length saved))
            then (saved, false)
            else if quit then (saved, false)
                 else collect_loop interval max_frames rest frame_count saved
          else if quit then (saved, false)
               else collect_loop interval max_frames rest frame_count saved
      end
  end.

Inductive CollectResult : Type :=
| Returned
| UnboundLocalError.

(** [collect_frames]: the frames written and how the call ends.  An
    exception of the [try] block is logged by the handler; the [finally]
    block then formats [saved_frame_count], which is unbound when the
    source could not be opened, since the [IOError] is raised before the
    counters are assigned. *)
Definition collect_frames (opened : bool) (interval max_frames : Z)
           (reads : list bool) : list Z * CollectResult :=
  if opened
  then (fst (collect_loop interval max_frames reads 0 []), Returned)
  else ([], UnboundLocalError).

(** ** The detector's result list ([services/detection.py]) *)

(** [d[k]] of a dictionary: [None] stands for [KeyError]. *)
Fixpoint dict_getitem {V : Type} (k : Z) (d : PyDict.t V) : option V :=
  match d with
  | [] => None
  | (k', v) :: rest => if k =? k' then Some v else dict_getitem k rest
  end.

(** [int(x)] of a finite float, given by its exact value: truncation
    towards zero. *)
Definition py_int (x : Q) : Z := Z.quot (Qnum x) (Z.pos (Qden x)).

(** [*xyxy, conf, cls = row]: [ValueError] for fewer than two items. *)
Definition unpack_row (row : list Q) : option (list Q * Q * Q) :=
  match rev row with
  | cls :: conf :: front => Some (rev front, conf, cls)
  | _ => None
  end.

Section Detect.

(** [round(conf, 2)]; the result is only stored. *)
Variable round2 : Q -> Q.

(** Body of the inner loop of [detect] (lines 78-84) for the class table
    [names] of the model; [None] when it raises. *)
Definition detect_row (names : PyDict.t string) (row : list Q) : option Detection :=
  match unpack_row row with
  | None => None
  | Some (xyxy, conf, cls) =>
      match dict_getitem (py_int cls) names with
      | None => None
      | Some label => Some (mkDetection (map py_int xyxy) (round2 conf) label)
      end
  end.

Fixpoint detect_rows (names : PyDict.t string) (rows : list (list Q))
  : option (list Detection) :=
  match rows with
  | [] => Some []
  | row :: rest =>
      match detect_row names row with
      | None => None
      | Some det =>
          match detect_rows names rest with
          | None => None
          | Some dets => Some (det :: dets)
          end
      end
  end.

(** [detect], from the point where the model has answered: [names] is the
    class table of the loaded model, if a model is loaded, and [results]
    holds for each result the rows of [r.boxes.data.tolist()]. *)
Definition detect (names : option (PyDict.t string)) (results : list (list (list Q)))
  : option (list Detection) :=
  match names with
  | None => Some []
  | Some names => detect_rows names (concat results)
  end.

End Detect.

(** * Properties *)

(** ** Lists and dictionaries *)

Section ListFacts.
Context {A : Type}.

Lemma filter_all (f : A -> bool) (l : list A) :
  (forall x, In x l -> f x = true) -> List.filter f l = l.
Proof.
  induction l as [|x l IH]; simpl; intros H; [reflexivity|].
  rewrite (H x) by (left; reflexivity).
  f_equal. apply IH. intros y Hy. apply H. right; exact Hy.
Qed.

Lemma filter_twice (f g : A -> bool) (l : list A) :
  List.filter g (List.filter f l) = List.filter (fun x => f x && g x) l.
Proof.
  induction l as [|x l IH]; simpl; [reflexivity|].
  destruct (f x); simpl; [destruct (g x)|]; rewrite IH; reflexivity.
Qed.

End ListFacts.

Section DictFacts.
Context {V : Type}.
Implicit Types (d : PyDict.t V) (k : Z) (v : V).

Lemma setitem_fresh k v d :
  ~ In k (PyDict.keys d) -> PyDict.setitem k v d = d ++ [(k, v)].
Proof.
  induction d as [|[k' v'] d IH]; simpl; intros Hk; [reflexivity|].
  destruct (Z.eqb_spec k k') as [->|Hne].
  - exfalso. apply Hk. left; reflexivity.
  - f_equal. apply IH. intros Hin. apply Hk. right; exact Hin.
Qed.

Lemma delitem_filter k d :
  List.NoDup (PyDict.keys d) ->
  PyDict.delitem k d = List.filter (fun it => negb (k =? fst it)) d.
Proof.
  induction d as [|[k' v'] d IH]; simpl; intros Hnd; [reflexivity|].
  apply NoDup_cons_iff in Hnd as [Hnotin Hnd].
  destruct (Z.eqb_spec k k') as [->|Hne]; simpl.
  - symmetry. apply filter_all. intros [k2 v2] Hin. simpl.
    destruct (Z.eqb_spec k' k2) as [->|]; [|reflexivity].
    exfalso. apply Hnotin. apply (in_map fst) in Hin. exact Hin.
  - f_equal. apply IH. exact Hnd.
Qed.

Lemma keys_filter_incl (f : Z * V -> bool) d k :
  In k (PyDict.keys (List.filter f d)) -> In k (PyDict.keys d).
Proof.
  unfold PyDict.keys. rewrite !in_map_iff.
  intros [it [Hk Hin]]. apply filter_In in Hin as [Hin _]. eauto.
Qed.

Lemma keys_filter_sorted (f : Z * V -> bool) d :
  StronglySorted Z.lt (PyDict.keys d) ->
  StronglySorted Z.lt (PyDict.keys (List.filter f d)).
Proof.
  induction d as [|it d IH]; simpl; intros Hs; [constructor|].
  apply StronglySorted_inv in Hs as [Hs Hall].
  destruct (f it); simpl; [|auto].
  constructor; [auto|].
  rewrite List.Forall_forall in *. intros k Hk.
  apply Hall. eapply keys_filter_incl; exact Hk.
Qed.

Lemma sorted_keys_NoDup (l : list Z) : StronglySorted Z.lt l -> List.NoDup l.
Proof.
  induction 1 as [|k l Hs IH Hall]; constructor; [|exact IH].
  intros Hin. rewrite List.Forall_forall in Hall.
  specialize (Hall k Hin). lia.
Qed.

End DictFacts.

Lemma keys_filter_NoDup {V : Type} (f : Z * V -> bool) (d : PyDict.t V) :
  List.NoDup (PyDict.keys d) -> List.NoDup (PyDict.keys (List.filter f d)).
Proof.
  induction d as [|it d IH]; simpl; intros Hnd; [constructor|].
  apply NoDup_cons_iff in Hnd as [Hnotin Hnd].
  destruct (f it); simpl; [|auto].
  constructor; [|auto].
  intros Hin. apply Hnotin. eapply keys_filter_incl; exact Hin.
Qed.

(** ** The three loops of [update] *)

Lemma remove_keys_filter (rm : list Z) : forall d : PyDict.t addr,
  List.NoDup (PyDict.keys d) ->
  remove_keys rm d =
  List.filter (fun it => negb (existsb (fun k => k =? fst it) rm)) d.
Proof.
  unfold remove_keys.
  induction rm as [|k rm IH]; simpl; intros d Hnd.
  - symmetry. apply filter_all. reflexivity.
  - rewrite delitem_filter by exact Hnd.
    rewrite IH by (apply keys_filter_NoDup; exact Hnd).
    rewrite filter_twice. apply filter_ext. intros it.
    rewrite negb_orb. reflexivity.
Qed.

Lemma bump_all_length (addrs : list addr) : forall h,
  length (bump_all addrs h) = length h.
Proof.
  unfold bump_all.
  induction addrs as [|a addrs IH]; simpl; intros h; [reflexivity|].
  rewrite IH. apply length_alter.
Qed.

Lemma bump_all_notin (addrs : list addr) (a : addr) : forall h,
  ~ In a addrs -> bump_all addrs h !! a = h !! a.
Proof.
  unfold bump_all.
  induction addrs as [|b addrs IH]; simpl; intros h Hnotin; [reflexivity|].
  rewrite IH by tauto. apply list_lookup_alter_ne. intros ->. tauto.
Qed.

Lemma bump_all_in (addrs : list addr) (a : addr) : forall h,
  List.NoDup addrs -> In a addrs -> bump_all addrs h !! a = bump <$> h !! a.
Proof.
  induction addrs as [|b addrs IH]; simpl; intros h Hnd Hin; [tauto|].
  apply NoDup_cons_iff in Hnd as [Hnotin Hnd].
  destruct Hin as [->|Hin].
  - change (bump_all addrs (alter bump a h) !! a = bump <$> h !! a).
    rewrite bump_all_notin by exact Hnotin. apply list_lookup_alter_eq.
  - change (bump_all addrs (alter bump b h) !! a = bump <$> h !! a).
    rewrite IH by assumption. rewrite list_lookup_alter_ne; [reflexivity|].
    intros ->. tauto.
Qed.

Lemma stale_alter_others (bs : Z) (h : list Track) (a : addr)
      (items : list (Z * addr)) :
  ~ In a (map snd items) ->
  List.filter (stale bs (alter bump a h)) items = List.filter (stale bs h) items.
Proof.
  intros Hnotin. apply filter_ext_in. intros [k b] Hin.
  unfold stale; simpl. rewrite list_lookup_alter_ne; [reflexivity|].
  intros ->. apply Hnotin. apply (in_map snd) in Hin. exact Hin.
Qed.

Lemma age_fold (bs : Z) (items : list (Z * addr)) : forall h rm,
  List.NoDup (map snd items) ->
  fold_left (age_step bs) items (h, rm) =
  (bump_all (map snd items) h, rm ++ map fst (List.filter (stale bs h) items)).
Proof.
  induction items as [|[k a] items IH]; simpl; intros h rm Hnd.
  - rewrite app_nil_r. reflexivity.
  - apply NoDup_cons_iff in Hnd as [Hnotin Hnd].
    unfold age_step at 2. cbn [fst snd]. rewrite list_lookup_alter_eq.
    cbn [List.filter map]. unfold stale at 1. cbn [snd].
    change (fold_left (fun h0 a0 => alter bump a0 h0) (map snd items) (alter bump a h))
      with (bump_all (map snd items) (alter bump a h)).
    destruct (h !! a) as [tr|]; cbn [fmap option_fmap option_map bump last_seen].
    + destruct (bs <? last_seen tr + 1); rewrite IH by exact Hnd;
        rewrite (stale_alter_others bs h a items Hnotin);
        cbn [map fst]; rewrite <- ?app_assoc; reflexivity.
    + rewrite IH by exact Hnd.
      rewrite (stale_alter_others bs h a items Hnotin). reflexivity.
Qed.

Lemma spawn_fold (dets : list Detection) : forall self upd,
  (forall k, In k (PyDict.keys (tracks self)) -> k < next_id self) ->
  fold_left spawn dets (self, upd) =
  (mkByteTrack (objs self ++ fresh_tracks (next_id self) dets)
               (tracks self ++ fresh_items (next_id self) (length (objs self)) dets)
               (next_id self + Z.of_nat (length dets))
               (buffer_size self),
   upd ++ seq (length (objs self)) (length dets)).
Proof.
  induction dets as [|det dets IH]; intros self upd Hkeys.
  - simpl. destruct self; simpl. rewrite !app_nil_r, Z.add_0_r. reflexivity.
  - cbn [fold_left]. unfold spawn at 2. cbn [fst snd].
    rewrite setitem_fresh
      by (intros Hin; specialize (Hkeys _ Hin); lia).
    rewrite IH.
    + cbn [objs tracks next_id buffer_size fresh_tracks fresh_items seq length].
      rewrite <- !app_assoc. cbn [app].
      rewrite length_app. cbn [length].
      replace (length (objs self) + 1)%nat with (S (length (objs self))) by lia.
      replace (next_id self + Z.of_nat (S (length dets)))
        with (next_id self + 1 + Z.of_nat (length dets)) by lia.
      reflexivity.
    + cbn [tracks next_id]. intros k Hin.
      unfold PyDict.keys in Hin. rewrite map_app in Hin. cbn [map fst] in Hin.
      apply in_app_or in Hin as [Hin|[<-|[]]]; [|lia].
      specialize (Hkeys _ Hin). lia.
Qed.

(** ** The tracks made by one call *)

Lemma fresh_tracks_length (dets : list Detection) : forall n,
  length (fresh_tracks n dets) = length dets.
Proof. induction dets as [|d dets IH]; simpl; intros n; [|rewrite IH]; reflexivity. Qed.

Lemma fresh_tracks_lookup (dets : list Detection) : forall n i tr,
  fresh_tracks n dets !! i = Some tr ->
  track_id tr = n + Z.of_nat i /\ last_seen tr = 0.
Proof.
  induction dets as [|d dets IH]; intros n i tr H; [destruct i; discriminate|].
  destruct i as [|i]; simpl in H.
  - injection H as <-. simpl. lia.
  - apply IH in H. lia.
Qed.

Lemma fresh_items_in (dets : list Detection) : forall n a0 k a,
  In (k, a) (fresh_items n a0 dets) ->
  exists i, (i < length dets)%nat /\ k = n + Z.of_nat i /\ a = (a0 + i)%nat.
Proof.
  induction dets as [|d dets IH]; simpl; intros n a0 k a H; [tauto|].
  destruct H as [H|H].
  - injection H as <- <-. exists 0%nat. lia.
  - apply IH in H as [i [Hi [-> ->]]]. exists (S i). lia.
Qed.

Lemma fresh_items_keys_sorted (dets : list Detection) : forall n a,
  StronglySorted Z.lt (map fst (fresh_items n a dets)).
Proof.
  induction dets as [|d dets IH]; simpl; intros n a; constructor; [apply IH|].
  apply List.Forall_forall. intros k Hk. apply in_map_iff in Hk as [[k' a'] [<- Hin]].
  apply fresh_items_in in Hin as [i [_ [-> _]]]. simpl. lia.
Qed.

Lemma sorted_app (l1 l2 : list Z) :
  StronglySorted Z.lt l1 -> StronglySorted Z.lt l2 ->
  (forall x y, In x l1 -> In y l2 -> x < y) ->
  StronglySorted Z.lt (l1 ++ l2).
Proof.
  induction l1 as [|x l1 IH]; simpl; intros H1 H2 Hlt; [exact H2|].
  apply StronglySorted_inv in H1 as [H1 Hall].
  constructor.
  - apply IH; auto.
  - apply List.Forall_forall. intros y Hy. apply in_app_or in Hy as [Hy|Hy].
    + rewrite List.Forall_forall in Hall. auto.
    + apply Hlt; auto.
Qed.

Lemma keys_inj {V : Type} (d : PyDict.t V) (x y : Z * V) :
  List.NoDup (PyDict.keys d) -> In x d -> In y d -> fst x = fst y -> x = y.
Proof.
  induction d as [|it d IH]; simpl; intros Hnd Hx Hy Heq; [tauto|].
  apply NoDup_cons_iff in Hnd as [Hnotin Hnd].
  destruct Hx as [->|Hx], Hy as [->|Hy]; auto.
  - exfalso. apply Hnotin. rewrite Heq. apply (in_map fst), Hy.
  - exfalso. apply Hnotin. rewrite <- Heq. apply (in_map fst), Hx.
Qed.

(** ** What [update] computes on a well-formed tracker *)

Section UpdateSpec.
Variable self : ByteTrack.
Variable dets : list Detection.
Hypothesis Hwf : wf self.

Let h0 : list Track := objs self ++ fresh_tracks (next_id self) dets.
Let items0 : list (Z * addr) :=
  tracks self ++ fresh_items (next_id self) (length (objs self)) dets.

Lemma old_keys_below : forall k, In k (PyDict.keys (tracks self)) -> k < next_id self.
Proof.
  intros k Hk. apply in_map_iff in Hk as [[k' a] [<- Hin]].
  apply (wf_items _ Hwf) in Hin as [-> Hlt]. simpl.
  rewrite (wf_next _ Hwf). lia.
Qed.

Lemma items0_in : forall k a, In (k, a) items0 ->
  k = Z.of_nat a /\ (a < length h0)%nat.
Proof.
  intros k a Hin. unfold items0, h0 in *. rewrite length_app, fresh_tracks_length.
  apply in_app_or in Hin as [Hin|Hin].
  - apply (wf_items _ Hwf) in Hin. lia.
  - apply fresh_items_in in Hin as [i [Hi [-> ->]]].
    rewrite (wf_next _ Hwf). lia.
Qed.

Lemma items0_sorted : StronglySorted Z.lt (PyDict.keys items0).
Proof.
  unfold PyDict.keys, items0. rewrite map_app. apply sorted_app.
  - apply (wf_sorted _ Hwf).
  - apply fresh_items_keys_sorted.
  - intros x y Hx Hy. apply old_keys_below in Hx.
    apply in_map_iff in Hy as [[k a] [<- Hin]].
    apply fresh_items_in in Hin as [i [_ [-> _]]]. simpl. lia.
Qed.

Lemma items0_keys_NoDup : List.NoDup (PyDict.keys items0).
Proof. apply sorted_keys_NoDup, items0_sorted. Qed.

Lemma items0_addrs_NoDup : List.NoDup (map snd items0).
Proof.
  apply (NoDup_map_inv Z.of_nat).
  replace (map Z.of_nat (map snd items0)) with (PyDict.keys items0);
    [apply items0_keys_NoDup|].
  unfold PyDict.keys. rewrite map_map. apply map_ext_in.
  intros [k a] Hin. apply items0_in in Hin. simpl. tauto.
Qed.

Lemma update_spec :
  update self dets =
  (seq (length (objs self)) (length dets),
   mkByteTrack (bump_all (map snd items0) h0)
               (List.filter (fun it => negb (stale (buffer_size self) h0 it)) items0)
               (next_id self + Z.of_nat (length dets))
               (buffer_size self)).
Proof.
  unfold update. rewrite spawn_fold by apply old_keys_below.
  cbn [objs tracks next_id buffer_size PyDict.items app].
  fold h0 items0.
  rewrite age_fold by apply items0_addrs_NoDup.
  cbn [app]. rewrite remove_keys_filter by apply items0_keys_NoDup.
  f_equal. f_equal. apply filter_ext_in. intros it Hit. f_equal.
  destruct (stale (buffer_size self) h0 it) eqn:Hst.
  - apply existsb_exists. exists (fst it). split; [|apply Z.eqb_refl].
    apply in_map, filter_In. auto.
  - apply not_true_is_false. intros Hex.
    apply existsb_exists in Hex as [k [Hk Heq]].
    apply Z.eqb_eq in Heq. subst k.
    apply in_map_iff in Hk as [it' [Heq Hin]].
    apply filter_In in Hin as [Hin Hst'].
    assert (it' = it) by (eapply keys_inj; eauto using items0_keys_NoDup).
    congruence.
Qed.

Lemma h0_ids : forall a tr, h0 !! a = Some tr -> track_id tr = Z.of_nat a.
Proof.
  intros a tr H. unfold h0 in H. apply lookup_app_Some in H as [H|[Hle H]].
  - apply (wf_ids _ Hwf), H.
  - apply fresh_tracks_lookup in H as [-> _]. rewrite (wf_next _ Hwf). lia.
Qed.

Lemma h0_old : forall a tr, objs self !! a = Some tr -> h0 !! a = Some tr.
Proof.
  intros a tr H. unfold h0. rewrite lookup_app_l; [exact H|].
  eapply lookup_lt_Some, H.
Qed.

Lemma items0_lookup : forall k a, In (k, a) items0 ->
  exists tr, h0 !! a = Some tr /\ 0 <= last_seen tr <= buffer_size self.
Proof.
  intros k a Hin. unfold items0 in Hin. apply in_app_or in Hin as [Hin|Hin].
  - destruct (wf_items _ Hwf _ _ Hin) as [_ Hlt].
    apply lookup_lt_is_Some_2 in Hlt as [tr Htr].
    exists tr. split; [apply h0_old, Htr|].
    pose proof (wf_age _ Hwf _ _ _ Hin Htr). lia.
  - apply fresh_items_in in Hin as [i [Hi [-> ->]]].
    assert (Hlt : (i < length (fresh_tracks (next_id self) dets))%nat)
      by (rewrite fresh_tracks_length; exact Hi).
    apply lookup_lt_is_Some_2 in Hlt as [tr Htr].
    exists tr. split.
    + unfold h0. rewrite lookup_app_r by lia.
      replace (length (objs self) + i - length (objs self))%nat with i by lia.
      exact Htr.
    + apply fresh_tracks_lookup in Htr as [_ ->].
      pose proof (wf_buffer _ Hwf). lia.
Qed.

Lemma update_objs_in : forall k a, In (k, a) items0 ->
  objs (snd (update self dets)) !! a = bump <$> h0 !! a.
Proof.
  intros k a Hin. rewrite update_spec. cbn [snd objs].
  apply bump_all_in; [apply items0_addrs_NoDup|].
  apply (in_map snd) in Hin. exact Hin.
Qed.

Lemma update_objs_id : forall a tr, h0 !! a = Some tr ->
  exists tr', objs (snd (update self dets)) !! a = Some tr' /\
              track_id tr' = track_id tr.
Proof.
  intros a tr H. rewrite update_spec. cbn [snd objs].
  destruct (in_dec Nat.eq_dec a (map snd items0)) as [Hin|Hnotin].
  - rewrite bump_all_in by (auto using items0_addrs_NoDup). rewrite H.
    exists (bump tr). split; reflexivity.
  - rewrite bump_all_notin by exact Hnotin. exists tr. split; auto.
Qed.

Lemma update_tracks_in : forall k a,
  In (k, a) (tracks (snd (update self dets))) <->
  In (k, a) items0 /\ stale (buffer_size self) h0 (k, a) = false.
Proof.
  intros k a. rewrite update_spec. cbn [snd tracks].
  rewrite filter_In, negb_true_iff. reflexivity.
Qed.

Lemma update_wf : wf (snd (update self dets)).
Proof.
  constructor.
  - rewrite update_spec. cbn [snd buffer_size]. apply (wf_buffer _ Hwf).
  - rewrite update_spec. cbn [snd next_id objs].
    rewrite bump_all_length. fold h0. unfold h0.
    rewrite length_app, fresh_tracks_length, (wf_next _ Hwf). lia.
  - intros a tr H.
    destruct (lookup_lt_is_Some_2 h0 a) as [tr0 Htr0].
    { apply lookup_lt_Some in H. rewrite update_spec in H. cbn [snd objs] in H.
      rewrite bump_all_length in H. exact H. }
    destruct (update_objs_id _ _ Htr0) as [tr' [Htr' Hid]].
    rewrite H in Htr'. injection Htr' as <-. rewrite Hid. apply h0_ids, Htr0.
  - intros k a Hin. apply update_tracks_in in Hin as [Hin _].
    rewrite update_spec. cbn [snd objs]. rewrite bump_all_length.
    apply items0_in, Hin.
  - rewrite update_spec. cbn [snd tracks].
    apply keys_filter_sorted, items0_sorted.
  - intros k a tr Hin Htr. apply update_tracks_in in Hin as [Hin Hst].
    rewrite (update_objs_in _ _ Hin) in Htr.
    destruct (items0_lookup _ _ Hin) as [tr0 [Htr0 Hage]].
    unfold stale in Hst. cbn [snd] in Hst. rewrite Htr0 in Hst, Htr.
    injection Htr as <-. cbn [bump last_seen].
    replace (buffer_size (snd (update self dets))) with (buffer_size self)
      by (rewrite update_spec; reflexivity).
    apply Z.ltb_ge in Hst. lia.
Qed.

End UpdateSpec.

Lemma fresh_items_has (dets : list Detection) : forall n a0 i,
  (i < length dets)%nat ->
  In (n + Z.of_nat i, (a0 + i)%nat) (fresh_items n a0 dets).
Proof.
  induction dets as [|d dets IH]; simpl; intros n a0 i Hi; [lia|].
  destruct i as [|i].
  - left. f_equal; lia.
  - right. replace (n + Z.of_nat (S i)) with (n + 1 + Z.of_nat i) by lia.
    replace (a0 + S i)%nat with (S a0 + i)%nat by lia.
    apply IH. lia.
Qed.

Lemma omap_fresh (H : list Track) (dets : list Detection) : forall n a0,
  (forall i tr, fresh_tracks n dets !! i = Some tr ->
                H !! (a0 + i)%nat = Some (bump tr)) ->
  omap (fun a => H !! a) (seq a0 (length dets)) = map bump (fresh_tracks n dets).
Proof.
  induction dets as [|d dets IH]; intros n a0 Hl; [reflexivity|].
  cbn [length seq omap list_omap fresh_tracks map].
  pose proof (Hl 0%nat _ eq_refl) as H0.
  rewrite Nat.add_0_r in H0. rewrite H0. f_equal.
  apply IH. intros i tr Hi.
  replace (S a0 + i)%nat with (a0 + S i)%nat by lia.
  apply Hl. exact Hi.
Qed.

(** The list returned by [update], read when the call returns, holds the
    tracks made for the detections of this call, each aged once. *)
Lemma update_returns_fresh (self : ByteTrack) (dets : list Detection) :
  wf self ->
  view (snd (update self dets)) (fst (update self dets)) =
  map bump (fresh_tracks (next_id self) dets).
Proof.
  intros Hwf. unfold view.
  replace (fst (update self dets)) with (seq (length (objs self)) (length dets))
    by (rewrite (update_spec self dets Hwf); reflexivity).
  apply omap_fresh. intros i tr Hi.
  assert (Hlt : (i < length dets)%nat).
  { apply lookup_lt_Some in Hi. rewrite fresh_tracks_length in Hi. exact Hi. }
  rewrite (update_objs_in self dets Hwf (next_id self + Z.of_nat i)).
  - rewrite lookup_app_r by lia.
    replace (length (objs self) + i - length (objs self))%nat with i by lia.
    rewrite Hi. reflexivity.
  - apply in_or_app. right. apply fresh_items_has. exact Hlt.
Qed.

Lemma fresh_tracks_ids (dets : list Detection) : forall n a,
  map track_id (map bump (fresh_tracks n dets)) = map fst (fresh_items n a dets).
Proof.
  induction dets as [|d dets IH]; simpl; intros n a; [reflexivity|].
  f_equal. apply IH.
Qed.

Lemma fresh_tracks_age (dets : list Detection) : forall n,
  List.Forall (fun tr => last_seen tr = 1) (map bump (fresh_tracks n dets)).
Proof.
  induction dets as [|d dets IH]; simpl; intros n; constructor; auto.
Qed.

(** ** Reachable trackers are well formed *)

Lemma init_wf (bs : Z) (self : ByteTrack) : init bs = Some self -> wf self.
Proof.
  unfold init. destruct (Z.ltb_spec bs 0) as [|Hbs]; [discriminate|].
  intros [= <-]. constructor; cbn [objs tracks next_id buffer_size length].
  - exact Hbs.
  - reflexivity.
  - intros a tr H. destruct a; discriminate.
  - intros k a [].
  - constructor.
  - intros k a tr [].
Qed.

Lemma exec_wf (self : ByteTrack) (c : Call) : wf self -> wf (snd (exec self c)).
Proof.
  intros Hwf. destruct c as [dets|]; cbn [exec snd]; [|exact Hwf].
  apply update_wf, Hwf.
Qed.

Lemma reachable_wf (self : ByteTrack) : reachable self -> wf self.
Proof.
  induction 1 as [bs self Hinit|self c _ IH].
  - eapply init_wf, Hinit.
  - apply exec_wf, IH.
Qed.

(** The tracks of the dictionary, as a caller reads them. *)
Lemma view_items (self : ByteTrack) (l : list (Z * addr)) :
  wf self -> incl l (tracks self) ->
  map track_id (view self (map snd l)) = map fst l /\
  List.Forall (fun tr => 1 <= last_seen tr <= buffer_size self)
              (view self (map snd l)) /\
  length (view self (map snd l)) = length l.
Proof.
  intros Hwf. unfold view.
  induction l as [|[k a] l IH]; intros Hincl; [repeat split; constructor|].
  assert (Hin : In (k, a) (tracks self)) by (apply Hincl; left; reflexivity).
  destruct IH as [IH1 [IH2 IH3]]; [intros x Hx; apply Hincl; right; exact Hx|].
  destruct (wf_items _ Hwf _ _ Hin) as [-> Hlt].
  apply lookup_lt_is_Some_2 in Hlt as [tr Htr].
  cbn [map snd fst omap list_omap]. rewrite Htr. cbn [map length].
  repeat split.
  - f_equal; [apply (wf_ids _ Hwf), Htr|exact IH1].
  - constructor; [apply (wf_age _ Hwf _ _ _ Hin Htr)|exact IH2].
  - f_equal. exact IH3.
Qed.

Lemma live_ids (self : ByteTrack) :
  wf self -> map track_id (live self) = PyDict.keys (tracks self).
Proof. intros Hwf. apply (view_items self (tracks self) Hwf), incl_refl. Qed.

Lemma live_ages (self : ByteTrack) :
  wf self ->
  List.Forall (fun tr => 1 <= last_seen tr <= buffer_size self) (live self).
Proof. intros Hwf. apply (view_items self (tracks self) Hwf), incl_refl. Qed.

Lemma one_track_reachable : reachable one_track.
Proof. apply (reach_exec fresh30 (Update [d0])), (reach_init 30). reflexivity. Qed.

Lemma filter_none {A : Type} (f : A -> bool) (l : list A) :
  (forall x, In x l -> f x = false) -> List.filter f l = [].
Proof.
  induction l as [|x l IH]; simpl; intros H; [reflexivity|].
  rewrite (H x) by (left; reflexivity). apply IH. intros y Hy. apply H. right; exact Hy.
Qed.

(** A track that is in the dictionary when [update] is called is aged by
    one, and stays in the dictionary exactly when its new age is within
    the buffer size. *)
Lemma update_old_track (self : ByteTrack) (dets : list Detection) k a tr :
  wf self -> In (k, a) (tracks self) -> objs self !! a = Some tr ->
  objs (snd (update self dets)) !! a = Some (bump tr) /\
  (In (k, a) (tracks (snd (update self dets))) <->
   last_seen tr + 1 <= buffer_size self).
Proof.
  intros Hwf Hin Htr.
  assert (Hin0 : In (k, a) (tracks self ++
                   fresh_items (next_id self) (length (objs self)) dets))
    by (apply in_or_app; left; exact Hin).
  pose proof (h0_old self dets a tr Htr) as Hh0.
  split.
  - rewrite (update_objs_in self dets Hwf k a Hin0), Hh0. reflexivity.
  - rewrite (update_tracks_in self dets Hwf). unfold stale. cbn [snd].
    rewrite Hh0, Z.ltb_ge. tauto.
Qed.

Lemma update_next_id (self : ByteTrack) (dets : list Detection) :
  wf self ->
  next_id (snd (update self dets)) = next_id self + Z.of_nat (length dets).
Proof. intros Hwf. rewrite (update_spec self dets Hwf). reflexivity. Qed.

Lemma assigned_ids_sorted (cs : list Call) : forall self,
  wf self ->
  StronglySorted Z.lt (assigned_ids self cs) /\
  List.Forall (fun k => next_id self <= k) (assigned_ids self cs).
Proof.
  induction cs as [|[dets|] cs IH]; intros self Hwf; cbn [assigned_ids].
  - split; constructor.
  - destruct (IH _ (update_wf self dets Hwf)) as [IHs IHb].
    rewrite update_next_id in IHb by exact Hwf.
    rewrite List.Forall_forall in IHb.
    rewrite update_returns_fresh by exact Hwf.
    rewrite (fresh_tracks_ids dets (next_id self) (length (objs self))).
    assert (Hfresh : forall k,
               In k (map fst (fresh_items (next_id self) (length (objs self)) dets)) ->
               next_id self <= k < next_id self + Z.of_nat (length dets)).
    { intros k Hk. apply in_map_iff in Hk as [[k' a] [<- Hin]].
      apply fresh_items_in in Hin as [i [Hi [-> _]]]. simpl. lia. }
    split.
    + apply sorted_app; [apply fresh_items_keys_sorted|exact IHs|].
      intros x y Hx Hy. apply Hfresh in Hx. apply IHb in Hy. lia.
    + apply List.Forall_forall. intros k Hk. apply in_app_or in Hk as [Hk|Hk].
      * apply Hfresh in Hk. lia.
      * apply IHb in Hk. lia.
  - apply IH, Hwf.
Qed.

(** ** [update] never deletes a missing key *)

Lemma remove_keys_checked_ok (rm : list Z) : forall d : PyDict.t addr,
  List.NoDup (PyDict.keys d) -> List.NoDup rm -> incl rm (PyDict.keys d) ->
  remove_keys_checked rm d = Some (remove_keys rm d).
Proof.
  induction rm as [|k rm IH]; intros d Hd Hrm Hincl; [reflexivity|].
  apply NoDup_cons_iff in Hrm as [Hk Hrm].
  cbn [remove_keys_checked].
  replace (existsb (Z.eqb k) (PyDict.keys d)) with true.
  - change (remove_keys (k :: rm) d) with (remove_keys rm (PyDict.delitem k d)).
    apply IH; [rewrite delitem_filter by exact Hd; apply keys_filter_NoDup, Hd
              |exact Hrm|].
    intros k' Hk'. rewrite delitem_filter by exact Hd.
    assert (Hin : In k' (PyDict.keys d)) by (apply Hincl; right; exact Hk').
    apply in_map_iff in Hin as [it [<- Hit]].
    apply in_map, filter_In. split; [exact Hit|].
    apply negb_true_iff, Z.eqb_neq. intros ->. tauto.
  - symmetry. apply existsb_exists. exists k. split; [|apply Z.eqb_refl].
    apply Hincl. left; reflexivity.
Qed.

Lemma remove_keys_present (self : ByteTrack) (dets : list Detection) :
  wf self ->
  let s1 := fst (fold_left spawn dets (self, [])) in
  let rm := snd (fold_left (age_step (buffer_size s1)) (PyDict.items (tracks s1))
                           (objs s1, [])) in
  remove_keys_checked rm (tracks s1) = Some (remove_keys rm (tracks s1)).
Proof.
  intros Hwf. cbv zeta.
  rewrite spawn_fold by (apply old_keys_below, Hwf).
  cbn [fst objs tracks buffer_size PyDict.items].
  rewrite age_fold by (apply items0_addrs_NoDup, Hwf). cbn [snd app].
  pose proof (items0_keys_NoDup self dets Hwf) as Hnd.
  apply remove_keys_checked_ok.
  - exact Hnd.
  - apply (keys_filter_NoDup (V := nat)), Hnd.
  - intros k Hk. eapply (keys_filter_incl (V := nat)), Hk.
Qed.

(** ** The tracker *)

(** C1 (defect of the code).  [update] returns [updated_tracks], which
    holds the tracks made in this call only, although its docstring
    promises the currently active tracks, new and persistent.  On a new
    tracker of buffer size 30, after [update([d0])] the call [update([])]
    returns the empty list while track 0, of age 2, is still live.  The
    list returned by the first call is no snapshot either: read after the
    second call it shows age 2. *)
Theorem update_returns_only_new_tracks :
  init 30 = Some fresh30 /\
  let r1 := update fresh30 [d0] in
  let r2 := update (snd r1) [] in
  view (snd r1) (fst r1) = [mkTrack 0 [10; 10; 50; 50] "person" (9 # 10) 1] /\
  view (snd r2) (fst r2) = [] /\
  live (snd r2) = [mkTrack 0 [10; 10; 50; 50] "person" (9 # 10) 2] /\
  buffer_size (snd r2) = 30 /\
  view (snd r2) (fst r1) = [mkTrack 0 [10; 10; 50; 50] "person" (9 # 10) 2].
Proof. vm_compute. repeat split; reflexivity. Qed.

(** C5 (defect of the code, the one of C1).  Scenario D: with one live
    track of age 0 and buffer size 30, [update([])] ages the track to 1
    and keeps it in the dictionary, but the list it returns is empty, as
    it is for [update([])] on any tracker. *)
Theorem scenario_D_result_is_empty :
  (let r := update scenario_D [] in
   live (snd r) = [mkTrack 0 [10; 10; 50; 50] "person" (9 # 10) 1] /\
   view (snd r) (fst r) = []) /\
  (forall self, fst (update self []) = []).
Proof.
  split; [vm_compute; split; reflexivity|].
  intros self. unfold update. cbn [fold_left].
  destruct (fold_left (age_step (buffer_size self)) (PyDict.items (tracks self))
                      (objs self, [])) as [h rm].
  reflexivity.
Qed.

(** C10.  The tracks made by a call to [update] are aged by the aging
    loop of the same call: every track the call returns has age 1.  With
    a buffer size of at least 1 they are all in the dictionary when the
    call returns; with buffer size 0 the dictionary is empty when the call
    returns. *)
Theorem new_tracks_aged_in_same_call (self : ByteTrack) (dets : list Detection) :
  reachable self ->
  let r := update self dets in
  length (view (snd r) (fst r)) = length dets /\
  List.Forall (fun tr => last_seen tr = 1) (view (snd r) (fst r)) /\
  (1 <= buffer_size self -> incl (fst r) (get_active_tracks (snd r))) /\
  (buffer_size self = 0 -> tracks (snd r) = [] /\ live (snd r) = []).
Proof.
  intros Hreach. apply reachable_wf in Hreach as Hwf. cbv zeta.
  rewrite update_returns_fresh by exact Hwf.
  split; [|split; [|split]].
  - rewrite length_map. apply fresh_tracks_length.
  - apply fresh_tracks_age.
  - intros Hbs a Ha. rewrite (update_spec self dets Hwf) in Ha. cbn [fst] in Ha.
    apply in_seq in Ha.
    assert (Hi : (a - length (objs self) < length dets)%nat) by lia.
    pose proof (fresh_items_has dets (next_id self) (length (objs self)) _ Hi) as Hin.
    replace (length (objs self) + (a - length (objs self)))%nat with a in Hin by lia.
    unfold get_active_tracks, PyDict.values.
    apply (in_map snd _ (next_id self + Z.of_nat (a - length (objs self)), a)).
    apply (update_tracks_in self dets Hwf). split; [apply in_or_app; right; exact Hin|].
    unfold stale. cbn [snd]. rewrite lookup_app_r by lia.
    destruct (fresh_tracks (next_id self) dets !! (a - length (objs self))%nat)
      as [tr|] eqn:Htr; [|reflexivity].
    apply fresh_tracks_lookup in Htr as [_ ->]. apply Z.ltb_ge. lia.
  - intros Hbs.
    assert (Hempty : tracks (snd (update self dets)) = []).
    { rewrite (update_spec self dets Hwf). cbn [snd tracks].
      apply filter_none. intros [k a] Hin. apply negb_false_iff.
      destruct (items0_lookup self dets Hwf k a Hin) as [tr [Htr Hage]].
      unfold stale. cbn [snd]. rewrite Htr. apply Z.ltb_lt. lia. }
    split; [exact Hempty|]. unfold live. rewrite Hempty. reflexivity.
Qed.

Lemma new_tracks_aged_in_same_call_witness :
  reachable fresh0 /\
  let r := update fresh0 [d0; d1] in
  length (view (snd r) (fst r)) = 2%nat /\
  List.Forall (fun tr => last_seen tr = 1) (view (snd r) (fst r)) /\
  (1 <= buffer_size fresh0 -> incl (fst r) (get_active_tracks (snd r))) /\
  (buffer_size fresh0 = 0 -> tracks (snd r) = [] /\ live (snd r) = []).
Proof.
  split.
  - apply (reach_init 0). reflexivity.
  - apply (new_tracks_aged_in_same_call fresh0 [d0; d1]).
    apply (reach_init 0). reflexivity.
Defined.

(** C4.  Ids are unique and ascend.  In every state a tracker reaches, the
    live tracks have pairwise different ids; a call never lowers the id
    counter and never changes the id of a track made earlier; and along
    any further sequence of calls the ids handed out ascend strictly and
    are all above the id of every track made before. *)
Theorem ids_unique_and_ascending (self : ByteTrack) :
  reachable self ->
  List.NoDup (map track_id (live self)) /\
  (forall c,
      next_id self <= next_id (snd (exec self c)) /\
      forall a tr, objs self !! a = Some tr ->
        exists tr', objs (snd (exec self c)) !! a = Some tr' /\
                    track_id tr' = track_id tr) /\
  (forall cs,
      StronglySorted Z.lt (assigned_ids self cs) /\
      forall old new, In old (objs self) -> In new (assigned_ids self cs) ->
                      track_id old < new).
Proof.
  intros Hreach. apply reachable_wf in Hreach as Hwf.
  split; [|split].
  - rewrite live_ids by exact Hwf. apply sorted_keys_NoDup, (wf_sorted _ Hwf).
  - intros [dets|]; cbn [exec snd].
    + split; [rewrite update_next_id by exact Hwf; lia|].
      intros a tr Htr. apply (update_objs_id self dets Hwf), h0_old, Htr.
    + split; [lia|]. intros a tr Htr. exists tr. split; [exact Htr|reflexivity].
  - intros cs. destruct (assigned_ids_sorted cs self Hwf) as [Hs Hb].
    split; [exact Hs|]. intros old new Hold Hnew.
    rewrite List.Forall_forall in Hb. apply Hb in Hnew.
    apply list_elem_of_In, list_elem_of_lookup in Hold as [a Ha].
    rewrite (wf_ids _ Hwf _ _ Ha).
    apply lookup_lt_Some in Ha. rewrite (wf_next _ Hwf) in Hnew. lia.
Qed.

Lemma ids_unique_and_ascending_witness :
  reachable one_track /\
  List.NoDup (map track_id (live one_track)) /\
  StronglySorted Z.lt
    (assigned_ids one_track [Update [d0; d1]; GetActiveTracks; Update [d1]]).
Proof.
  split; [exact one_track_reachable|].
  destruct (ids_unique_and_ascending one_track one_track_reachable)
    as [Huniq [_ Hseq]].
  split; [exact Huniq|].
  exact (proj1 (Hseq [Update [d0; d1]; GetActiveTracks; Update [d1]])).
Defined.

(** C3, counterexample.  A call to [get_active_tracks] matches no track
    and yet leaves every age as it is: the live track of [one_track] has
    age 1 before and after. *)
Lemma fetch_does_not_age :
  reachable one_track /\
  ~ (map last_seen (live (snd (exec one_track GetActiveTracks))) =
     map (fun age => age + 1) (map last_seen (live one_track))).
Proof.
  split; [exact one_track_reachable|]. vm_compute. discriminate.
Qed.

(** C3, as amended.  In every state a tracker reaches no live track is
    older than the buffer size.  A call to [update] ages each track of the
    dictionary by exactly one, and the track stays in the dictionary
    exactly when its new age is within the buffer size; a call to
    [get_active_tracks] changes nothing. *)
Theorem eviction_bound (self : ByteTrack) (c : Call) :
  reachable self ->
  let self' := snd (exec self c) in
  List.Forall (fun tr => last_seen tr <= buffer_size self') (live self') /\
  (forall dets, c = Update dets ->
     forall k a tr, In (k, a) (tracks self) -> objs self !! a = Some tr ->
       objs self' !! a = Some (bump tr) /\
       (In (k, a) (tracks self') <-> last_seen tr + 1 <= buffer_size self)) /\
  (c = GetActiveTracks -> self' = self).
Proof.
  intros Hreach. apply reachable_wf in Hreach as Hwf. cbv zeta.
  split; [|split].
  - eapply List.Forall_impl; [|apply live_ages, exec_wf, Hwf].
    cbv beta. intros tr Htr. lia.
  - intros dets -> k a tr Hin Htr. cbn [exec].
    apply update_old_track; assumption.
  - intros ->. reflexivity.
Qed.

Lemma eviction_bound_witness :
  reachable one_track /\
  let self' := snd (exec one_track (Update [])) in
  List.Forall (fun tr => last_seen tr <= buffer_size self') (live self').
Proof.
  split; [exact one_track_reachable|].
  exact (proj1 (eviction_bound one_track (Update []) one_track_reachable)).
Defined.

(** ** The streaming loop *)

Lemma should_run_detector_spec (fc interval : Z) :
  interval <> 0 ->
  should_run_detector fc interval = Some (fc mod interval =? 0).
Proof.
  intros Hne. unfold should_run_detector, py_mod.
  destruct (Z.eqb_spec interval 0); [contradiction|reflexivity].
Qed.

Lemma finish_session (send : Send) (s : Session) (cl : list Collaborator)
      (dets : list Detection) (trs : list Track) :
  session (finish send s cl dets trs) = s /\ called (finish send s cl dets trs) = cl.
Proof. destruct send; split; reflexivity. Qed.

(** C6.  For an interval of at least 1 the test of the loop never fails
    and is decided by the frame index and the interval alone; on a frame
    that decodes, the detector is called exactly when the frame index (the
    loop's [frame_count], which counts this frame) is a multiple of the
    interval. *)
Theorem detector_cadence (interval : Z) (s : Session)
        (detect : option (list Detection)) (send : Send) :
  1 <= interval ->
  (forall frameIndex,
      should_run_detector frameIndex interval =
      Some (frameIndex mod interval =? 0)) /\
  (In CallDetect (called (cycle interval s (Frame detect send))) <->
   (frame_count s + 1) mod interval = 0).
Proof.
  intros Hint. split.
  - intros fi. apply should_run_detector_spec. lia.
  - cbn [cycle]. rewrite should_run_detector_spec by lia.
    destruct (Z.eqb_spec ((frame_count s + 1) mod interval) 0) as [Hz|Hnz].
    + split; [intros _; exact Hz|intros _].
      destruct detect as [dets|]; [|left; reflexivity].
      rewrite (proj2 (finish_session _ _ _ _ _)). left; reflexivity.
    + split; [|contradiction].
      rewrite (proj2 (finish_session _ _ _ _ _)).
      intros [Heq|[]]. discriminate.
Qed.

Lemma detector_cadence_witness :
  1 <= 5 /\
  should_run_detector 10 5 = Some true /\
  (In CallDetect (called (cycle 5 (mkSession 9 one_track) (Frame (Some [d1]) SendOk))) <->
   (9 + 1) mod 5 = 0).
Proof.
  assert (H : 1 <= 5) by lia.
  destruct (detector_cadence 5 (mkSession 9 one_track) (Some [d1]) SendOk H)
    as [Hdec Hcall].
  split; [exact H|]. split; [exact (Hdec 10)|exact Hcall].
Defined.

(** C8.  A payload that does not decode, whether decoding raises or yields
    no frame, is skipped: the session, that is the frame counter and the
    tracker, is unchanged, no collaborator is called, nothing is sent, and
    the loop goes on with the next input. *)
Theorem undecodable_frame_skipped (interval : Z) (s : Session) (raised : bool)
        (rest : list Input) :
  let o := cycle interval s (Undecodable raised) in
  status o = Streaming /\
  session o = s /\
  called o = [] /\
  sent o = None /\
  serve interval s (Undecodable raised :: rest) = o :: serve interval s rest.
Proof. cbv zeta. repeat split; reflexivity. Qed.

(** C7, counterexample.  With interval 1 every frame is a detection frame;
    when the detector raises on the first one, the session fails and the
    next frame is never received. *)
Lemma detector_error_ends_loop :
  let s := mkSession 0 fresh30 in
  let o := cycle 1 s (Frame None SendOk) in
  status o <> Streaming /\
  serve 1 s [Frame None SendOk; Frame (Some [d0]) SendOk] = [o].
Proof. vm_compute. split; [discriminate|reflexivity]. Qed.

(** C7, as amended.  When the detector raises on a detection frame, the
    exception reaches the handler that follows the loop: the session
    fails, nothing is sent, no later input is received, and the tracker is
    left as it was (it is neither updated nor read); the frame has been
    counted. *)
Theorem detector_error_is_fatal (interval : Z) (s : Session) (send : Send)
        (rest : list Input) :
  should_run_detector (frame_count s + 1) interval = Some true ->
  let o := cycle interval s (Frame None send) in
  status o = Failed /\
  called o = [CallDetect] /\
  sent o = None /\
  tracker (session o) = tracker s /\
  frame_count (session o) = frame_count s + 1 /\
  serve interval s (Frame None send :: rest) = [o].
Proof.
  intros Hrun. cbn [serve cycle]. rewrite Hrun. cbn.
  repeat split; reflexivity.
Qed.

Lemma detector_error_is_fatal_witness :
  should_run_detector (4 + 1) 5 = Some true /\
  let s := mkSession 4 one_track in
  let o := cycle 5 s (Frame None SendOk) in
  status o = Failed /\
  called o = [CallDetect] /\
  sent o = None /\
  tracker (session o) = tracker s /\
  frame_count (session o) = frame_count s + 1 /\
  serve 5 s [Frame None SendOk; Frame (Some [d0]) SendOk] = [o].
Proof.
  split; [reflexivity|].
  exact (detector_error_is_fatal 5 (mkSession 4 one_track) SendOk
           [Frame (Some [d0]) SendOk] eq_refl).
Defined.

(** C2, counterexample.  With interval 5 the first frame is a track-only
    frame; the live track of [one_track] has age 1 before the cycle and
    age 1 after it. *)
Lemma fetch_cycle_keeps_ages :
  let s := mkSession 0 one_track in
  let o := cycle 5 s (Frame (Some []) SendOk) in
  called o = [CallGetActiveTracks] /\
  ~ (map last_seen (live (tracker (session o))) =
     map (fun age => age + 1) (map last_seen (live (tracker s)))).
Proof. vm_compute. split; [reflexivity|discriminate]. Qed.

(** C2, as amended.  On a cycle where the detector does not run, the loop
    calls [get_active_tracks] only: the tracker is left as it is (no track
    is aged, evicted or made), and what is sent is the live set, one entry
    per key of the dictionary, in ascending order of id, each of an age
    between 1 and the buffer size. *)
Theorem track_only_cycle (interval : Z) (s : Session)
        (detect : option (list Detection)) (send : Send) :
  reachable (tracker s) ->
  should_run_detector (frame_count s + 1) interval = Some false ->
  let o := cycle interval s (Frame detect send) in
  called o = [CallGetActiveTracks] /\
  tracker (session o) = tracker s /\
  (send = SendOk -> sent o = Some ([], live (tracker s))) /\
  map track_id (live (tracker s)) = PyDict.keys (tracks (tracker s)) /\
  StronglySorted Z.lt (map track_id (live (tracker s))) /\
  List.Forall (fun tr => 1 <= last_seen tr <= buffer_size (tracker s))
              (live (tracker s)).
Proof.
  intros Hreach Hrun. apply reachable_wf in Hreach as Hwf.
  cbn [cycle]. rewrite Hrun. cbv zeta.
  destruct (finish_session send (mkSession (frame_count s + 1) (tracker s))
              [CallGetActiveTracks] []
              (view (tracker s) (get_active_tracks (tracker s)))) as [Hs Hc].
  rewrite Hs, Hc. cbn [tracker].
  split; [reflexivity|]. split; [reflexivity|].
  split; [intros ->; reflexivity|].
  rewrite live_ids by exact Hwf.
  split; [reflexivity|]. split; [apply (wf_sorted _ Hwf)|apply live_ages, Hwf].
Qed.

Lemma track_only_cycle_witness :
  reachable one_track /\
  should_run_detector (0 + 1) 5 = Some false /\
  let s := mkSession 0 one_track in
  let o := cycle 5 s (Frame None SendOk) in
  called o = [CallGetActiveTracks] /\
  tracker (session o) = tracker s /\
  sent o = Some ([], live one_track).
Proof.
  split; [exact one_track_reachable|]. split; [reflexivity|].
  destruct (track_only_cycle 5 (mkSession 0 one_track) None SendOk
              one_track_reachable eq_refl) as [Hc [Ht [Hs _]]].
  split; [exact Hc|]. split; [exact Ht|exact (Hs eq_refl)].
Defined.

(** * Further properties of the tracker *)

Lemma fresh_tracks_fields (dets : list Detection) : forall n,
  map track_box (map bump (fresh_tracks n dets)) = map det_box dets /\
  map track_class (map bump (fresh_tracks n dets)) = map det_class dets /\
  map track_confidence (map bump (fresh_tracks n dets)) = map det_confidence dets /\
  map track_id (map bump (fresh_tracks n dets)) = seqZ n (Z.of_nat (length dets)).
Proof.
  induction dets as [|d dets IH]; intros n; [repeat split; reflexivity|].
  destruct (IH (n + 1)) as [Hb [Hc [Hq Hi]]].
  cbn [fresh_tracks map length]. rewrite Hb, Hc, Hq, Hi.
  repeat split; try reflexivity.
  rewrite (seqZ_cons n (Z.of_nat (S (length dets)))) by lia.
  cbn [bump new_track track_id]. do 2 f_equal; lia.
Qed.

(** What [update] returns: one track per detection, in the order of the
    detections, with the box, the class and the confidence of its
    detection, and with the ids [next_id], [next_id + 1], ... *)
Theorem update_returns_detections (self : ByteTrack) (dets : list Detection) :
  reachable self ->
  let r := update self dets in
  let trs := view (snd r) (fst r) in
  map track_box trs = map det_box dets /\
  map track_class trs = map det_class dets /\
  map track_confidence trs = map det_confidence dets /\
  map track_id trs = seqZ (next_id self) (Z.of_nat (length dets)).
Proof.
  intros Hreach. apply reachable_wf in Hreach as Hwf. cbv zeta.
  rewrite update_returns_fresh by exact Hwf. apply fresh_tracks_fields.
Qed.

Lemma update_returns_detections_witness :
  reachable one_track /\
  let r := update one_track [d1; d0] in
  map track_class (view (snd r) (fst r)) = ["bicycle"; "person"] /\
  map track_id (view (snd r) (fst r)) = [1; 2].
Proof.
  split; [exact one_track_reachable|].
  destruct (update_returns_detections one_track [d1; d0] one_track_reachable)
    as [_ [Hc [_ Hi]]].
  split; [exact Hc|exact Hi].
Defined.

Lemma run_wf (cs : list Call) : forall self, wf self -> wf (run self cs).
Proof.
  unfold run. induction cs as [|c cs IH]; intros self Hwf; [exact Hwf|].
  cbn [fold_left]. apply IH, exec_wf, Hwf.
Qed.

Lemma run_reachable (cs : list Call) : forall self,
  reachable self -> reachable (run self cs).
Proof.
  unfold run. induction cs as [|c cs IH]; intros self Hr; [exact Hr|].
  cbn [fold_left]. apply IH, reach_exec, Hr.
Qed.

Lemma run_next_id (cs : list Call) : forall self,
  wf self -> next_id (run self cs) = next_id self + detections_in cs.
Proof.
  unfold run. induction cs as [|[dets|] cs IH]; intros self Hwf;
    cbn [fold_left detections_in exec snd].
  - lia.
  - rewrite IH by (apply update_wf, Hwf).
    rewrite update_next_id by exact Hwf. lia.
  - apply IH, Hwf.
Qed.

(** The id counter counts detections: after any sequence of calls on a
    new tracker, [next_id] is the number of detections that the calls to
    [update] received, and so is the number of track dictionaries made. *)
Theorem next_id_counts_detections (bs : Z) (self : ByteTrack) (cs : list Call) :
  init bs = Some self ->
  next_id (run self cs) = detections_in cs /\
  Z.of_nat (length (objs (run self cs))) = detections_in cs.
Proof.
  intros Hinit. pose proof (init_wf bs self Hinit) as Hwf.
  assert (Hn : next_id (run self cs) = detections_in cs).
  { rewrite run_next_id by exact Hwf.
    unfold init in Hinit. destruct (bs <? 0); [discriminate|].
    injection Hinit as <-. reflexivity. }
  split; [exact Hn|].
  rewrite <- (wf_next _ (run_wf cs self Hwf)). exact Hn.
Qed.

Lemma next_id_counts_detections_witness :
  init 30 = Some fresh30 /\
  next_id (run fresh30 [Update [d0; d1]; GetActiveTracks; Update [d1]]) = 3.
Proof.
  split; [reflexivity|].
  exact (proj1 (next_id_counts_detections 30 fresh30
                  [Update [d0; d1]; GetActiveTracks; Update [d1]] eq_refl)).
Defined.

(** The [del] of [update] never raises [KeyError]: every key that the
    aging loop puts in [tracks_to_remove] is in the dictionary when it is
    deleted. *)
Theorem update_never_deletes_missing_key (self : ByteTrack) (dets : list Detection) :
  reachable self ->
  let s1 := fst (fold_left spawn dets (self, [])) in
  let rm := snd (fold_left (age_step (buffer_size s1)) (PyDict.items (tracks s1))
                           (objs s1, [])) in
  remove_keys_checked rm (tracks s1) = Some (remove_keys rm (tracks s1)).
Proof. intros Hreach. apply remove_keys_present, reachable_wf, Hreach. Qed.

Lemma update_never_deletes_missing_key_witness :
  reachable fresh0 /\
  let s1 := fst (fold_left spawn [d0; d1] (fresh0, [])) in
  let rm := snd (fold_left (age_step (buffer_size s1)) (PyDict.items (tracks s1))
                           (objs s1, [])) in
  rm = [0; 1] /\
  remove_keys_checked rm (tracks s1) = Some (remove_keys rm (tracks s1)).
Proof.
  assert (Hr : reachable fresh0) by (apply (reach_init 0); reflexivity).
  split; [exact Hr|]. split; [reflexivity|].
  exact (update_never_deletes_missing_key fresh0 [d0; d1] Hr).
Defined.

(** With buffer size 0 no track outlives the call that made it: in every
    state such a tracker reaches the dictionary is empty, so
    [get_active_tracks] returns the empty list. *)
Theorem zero_buffer_keeps_nothing (self : ByteTrack) :
  reachable self -> buffer_size self = 0 ->
  tracks self = [] /\ get_active_tracks self = [].
Proof.
  intros Hreach Hbs. apply reachable_wf in Hreach as Hwf.
  assert (Hempty : tracks self = []).
  { destruct (tracks self) as [|[k a] rest] eqn:Htr; [reflexivity|exfalso].
    assert (Hin : In (k, a) (tracks self)) by (rewrite Htr; left; reflexivity).
    destruct (wf_items _ Hwf _ _ Hin) as [_ Hlt].
    apply lookup_lt_is_Some_2 in Hlt as [tr Hlook].
    pose proof (wf_age _ Hwf _ _ _ Hin Hlook). lia. }
  split; [exact Hempty|]. unfold get_active_tracks. rewrite Hempty. reflexivity.
Qed.

Lemma zero_buffer_keeps_nothing_witness :
  reachable (run fresh0 [Update [d0; d1]; Update [d1]]) /\
  buffer_size (run fresh0 [Update [d0; d1]; Update [d1]]) = 0 /\
  get_active_tracks (run fresh0 [Update [d0; d1]; Update [d1]]) = [].
Proof.
  assert (Hr : reachable (run fresh0 [Update [d0; d1]; Update [d1]])).
  { apply run_reachable, (reach_init 0). reflexivity. }
  split; [exact Hr|]. split; [reflexivity|].
  exact (proj2 (zero_buffer_keeps_nothing _ Hr eq_refl)).
Defined.

Lemma view_app (self : ByteTrack) (l1 l2 : list addr) :
  view self (l1 ++ l2) = view self l1 ++ view self l2.
Proof. unfold view. apply omap_app. Qed.

Lemma fresh_items_snd (dets : list Detection) : forall n a,
  map snd (fresh_items n a dets) = seq a (length dets).
Proof. induction dets as [|d dets IH]; simpl; intros n a; [|rewrite IH]; reflexivity. Qed.

Section LiveAfterUpdate.
Variable self : ByteTrack.
Variable dets : list Detection.
Hypothesis Hwf : wf self.

Let h0 : list Track := objs self ++ fresh_tracks (next_id self) dets.
Let keep (it : Z * addr) : bool := negb (stale (buffer_size self) h0 it).

Lemma survivors_view (l : list (Z * addr)) :
  incl l (tracks self) ->
  view (snd (update self dets)) (map snd (List.filter keep l)) =
  map bump (List.filter (fun tr => last_seen tr + 1 <=? buffer_size self)
                        (view self (map snd l))).
Proof.
  induction l as [|[k a] l IH]; intros Hincl; [reflexivity|].
  assert (Hin : In (k, a) (tracks self)) by (apply Hincl; left; reflexivity).
  assert (Hl : incl l (tracks self)) by (intros x Hx; apply Hincl; right; exact Hx).
  destruct (wf_items _ Hwf _ _ Hin) as [_ Hlt].
  apply lookup_lt_is_Some_2 in Hlt as [tr Htr].
  destruct (update_old_track self dets k a tr Hwf Hin Htr) as [Hnew _].
  cbn [List.filter map snd]. unfold view at 2. cbn [omap list_omap].
  rewrite Htr. fold (view self (map snd l)). cbn [List.filter].
  unfold keep at 1, stale. cbn [snd]. unfold h0.
  rewrite (h0_old self dets a tr Htr). rewrite Z.leb_antisym.
  destruct (buffer_size self <? last_seen tr + 1); cbn [negb map snd].
  - apply IH, Hl.
  - unfold view at 1. cbn [omap list_omap]. rewrite Hnew.
    fold (view (snd (update self dets)) (map snd (List.filter keep l))).
    cbn [map]. f_equal. apply IH, Hl.
Qed.

Lemma fresh_item_age (k : Z) (a : addr) :
  In (k, a) (fresh_items (next_id self) (length (objs self)) dets) ->
  stale (buffer_size self) h0 (k, a) = (buffer_size self <? 1).
Proof.
  intros Hin. apply fresh_items_in in Hin as [i [Hi [-> ->]]].
  assert (Hlt : (i < length (fresh_tracks (next_id self) dets))%nat)
    by (rewrite fresh_tracks_length; exact Hi).
  apply lookup_lt_is_Some_2 in Hlt as [tr Htr].
  unfold stale, h0. cbn [snd]. rewrite lookup_app_r by lia.
  replace (length (objs self) + i - length (objs self))%nat with i by lia.
  rewrite Htr. apply fresh_tracks_lookup in Htr as [_ ->]. reflexivity.
Qed.

Lemma fresh_survivors :
  List.filter keep (fresh_items (next_id self) (length (objs self)) dets) =
  if 1 <=? buffer_size self
  then fresh_items (next_id self) (length (objs self)) dets
  else [].
Proof.
  rewrite Z.leb_antisym.
  destruct (buffer_size self <? 1) eqn:Hbs; cbn [negb].
  - apply filter_none. intros [k a] Hin. unfold keep.
    rewrite (fresh_item_age k a Hin), Hbs. reflexivity.
  - apply filter_all. intros [k a] Hin. unfold keep.
    rewrite (fresh_item_age k a Hin), Hbs. reflexivity.
Qed.

Lemma live_after_update :
  live (snd (update self dets)) =
  map bump (List.filter (fun tr => last_seen tr + 1 <=? buffer_size self) (live self))
  ++ (if 1 <=? buffer_size self
      then view (snd (update self dets)) (fst (update self dets))
      else []).
Proof.
  unfold live at 1, PyDict.values.
  replace (tracks (snd (update self dets)))
    with (List.filter keep (tracks self) ++
          List.filter keep (fresh_items (next_id self) (length (objs self)) dets)).
  - rewrite map_app, view_app. f_equal.
    + apply survivors_view, incl_refl.
    + rewrite fresh_survivors. destruct (1 <=? buffer_size self); [|reflexivity].
      rewrite fresh_items_snd. f_equal.
      rewrite (update_spec self dets Hwf). reflexivity.
  - rewrite (update_spec self dets Hwf). cbn [snd tracks].
    rewrite List.filter_app. reflexivity.
Qed.

End LiveAfterUpdate.

(** The live set after [update]: the tracks that were live before and are
    still within the buffer size, each aged by one and otherwise as it
    was, in their old order, followed by the tracks made in this call
    (none of which stays when the buffer size is 0).  No detection is ever
    matched with an existing track. *)
Theorem live_set_after_update (self : ByteTrack) (dets : list Detection) :
  reachable self ->
  let r := update self dets in
  live (snd r) =
  map bump (List.filter (fun tr => last_seen tr + 1 <=? buffer_size self) (live self))
  ++ (if 1 <=? buffer_size self then view (snd r) (fst r) else []).
Proof. intros Hreach. apply live_after_update, reachable_wf, Hreach. Qed.

Lemma live_set_after_update_witness :
  reachable one_track /\
  let r := update one_track [d1] in
  map track_id (live (snd r)) = [0; 1] /\
  map last_seen (live (snd r)) = [2; 1].
Proof.
  split; [exact one_track_reachable|]. cbv zeta.
  rewrite (live_set_after_update one_track [d1] one_track_reachable).
  split; reflexivity.
Defined.

Lemma update_keeps_buffer (self : ByteTrack) (dets : list Detection) :
  wf self -> buffer_size (snd (update self dets)) = buffer_size self.
Proof. intros Hwf. rewrite (update_spec self dets Hwf). reflexivity. Qed.

Lemma updates_in_nonneg (cs : list Call) : 0 <= updates_in cs.
Proof. induction cs as [|[dets|] cs IH]; cbn [updates_in]; lia. Qed.

Lemma exec_tracks_origin (self : ByteTrack) (c : Call) (k : Z) (a : addr) :
  wf self -> In (k, a) (tracks (snd (exec self c))) ->
  In (k, a) (tracks self) \/ next_id self <= k.
Proof.
  intros Hwf Hin. destruct c as [dets|]; cbn [exec snd] in Hin; [|left; exact Hin].
  apply (update_tracks_in self dets Hwf) in Hin as [Hin _].
  apply in_app_or in Hin as [Hin|Hin]; [left; exact Hin|right].
  apply fresh_items_in in Hin as [i [_ [-> _]]]. lia.
Qed.

Lemma exec_next_id_le (self : ByteTrack) (c : Call) :
  wf self -> next_id self <= next_id (snd (exec self c)).
Proof.
  intros Hwf. destruct c as [dets|]; cbn [exec snd]; [|lia].
  rewrite update_next_id by exact Hwf. lia.
Qed.

Lemma run_tracks_origin (cs : list Call) : forall self k a,
  wf self -> In (k, a) (tracks (run self cs)) ->
  In (k, a) (tracks self) \/ next_id self <= k.
Proof.
  unfold run. induction cs as [|c cs IH]; intros self k a Hwf Hin; [left; exact Hin|].
  cbn [fold_left] in Hin.
  apply IH in Hin as [Hin|Hle]; [|right|apply exec_wf, Hwf].
  - apply (exec_tracks_origin self c); assumption.
  - pose proof (exec_next_id_le self c Hwf). lia.
Qed.

Lemma track_lifetime_wf (cs : list Call) : forall self k a tr,
  wf self -> In (k, a) (tracks self) -> objs self !! a = Some tr ->
  (In (k, a) (tracks (run self cs)) <->
   last_seen tr + updates_in cs <= buffer_size self) /\
  (last_seen tr + updates_in cs <= buffer_size self ->
   objs (run self cs) !! a =
   Some (mkTrack (track_id tr) (track_box tr) (track_class tr)
                 (track_confidence tr) (last_seen tr + updates_in cs))).
Proof.
  induction cs as [|[dets|] cs IH]; intros self k a tr Hwf Hin Htr.
  - cbn [updates_in]. unfold run. cbn [fold_left].
    pose proof (wf_age _ Hwf _ _ _ Hin Htr). split; [split; [lia|auto]|].
    intros _. rewrite Htr, Z.add_0_r. destruct tr; reflexivity.
  - cbn [updates_in].
    change (run self (Update dets :: cs)) with (run (snd (update self dets)) cs).
    pose proof (updates_in_nonneg cs) as Hu.
    destruct (update_old_track self dets k a tr Hwf Hin Htr) as [Hnew Hstay].
    pose proof (update_wf self dets Hwf) as Hwf1.
    destruct (Z_le_gt_dec (last_seen tr + 1) (buffer_size self)) as [Hle|Hgt].
    + destruct (IH _ k a (bump tr) Hwf1 (proj2 Hstay Hle) Hnew) as [IH1 IH2].
      rewrite update_keeps_buffer in IH1, IH2 by exact Hwf.
      cbn [bump last_seen track_id track_box track_class track_confidence] in IH1, IH2.
      replace (last_seen tr + (1 + updates_in cs))
        with (last_seen tr + 1 + updates_in cs) by lia.
      split; [exact IH1|exact IH2].
    + split; [split|]; [|lia|lia].
      intros Hrun. exfalso.
      apply run_tracks_origin in Hrun as [Hrun|Hrun]; [|  |exact Hwf1].
      * apply Hstay in Hrun. lia.
      * destruct (wf_items _ Hwf _ _ Hin) as [-> Hlt].
        rewrite update_next_id, (wf_next _ Hwf) in Hrun by exact Hwf. lia.
  - cbn [updates_in].
    change (run self (GetActiveTracks :: cs)) with (run self cs).
    apply IH; assumption.
Qed.

(** The life of a track.  A track that is in the dictionary stays there
    through a sequence of calls exactly when its age plus the number of
    calls to [update] in the sequence does not exceed the buffer size,
    whatever the calls to [get_active_tracks] in between; while it stays,
    its age has grown by that number and nothing else in it has changed. *)
Theorem track_lifetime (self : ByteTrack) (cs : list Call) (k : Z) (a : addr)
        (tr : Track) :
  reachable self -> In (k, a) (tracks self) -> objs self !! a = Some tr ->
  (In (k, a) (tracks (run self cs)) <->
   last_seen tr + updates_in cs <= buffer_size self) /\
  (last_seen tr + updates_in cs <= buffer_size self ->
   objs (run self cs) !! a =
   Some (mkTrack (track_id tr) (track_box tr) (track_class tr)
                 (track_confidence tr) (last_seen tr + updates_in cs))).
Proof. intros Hreach. apply track_lifetime_wf, reachable_wf, Hreach. Qed.

Lemma track_lifetime_witness :
  reachable one_track /\
  In (0, 0%nat) (tracks one_track) /\
  objs one_track !! 0%nat = Some (mkTrack 0 [10; 10; 50; 50] "person" (9 # 10) 1) /\
  (In (0, 0%nat) (tracks (run one_track [Update [d1]; GetActiveTracks; Update []])) <->
   1 + 2 <= 30).
Proof.
  split; [exact one_track_reachable|].
  split; [left; reflexivity|]. split; [reflexivity|].
  exact (proj1 (track_lifetime one_track [Update [d1]; GetActiveTracks; Update []]
                  0 0%nat _ one_track_reachable
                  (or_introl eq_refl) eq_refl)).
Defined.

(** ** Oldest first *)

Section SortedFacts.
Context {A : Type} (R : A -> A -> Prop).

Lemma ssorted_filter (f : A -> bool) (l : list A) :
  StronglySorted R l -> StronglySorted R (List.filter f l).
Proof.
  induction 1 as [|x l Hs IH Hall]; cbn [List.filter]; [constructor|].
  destruct (f x); [|exact IH]. constructor; [exact IH|].
  rewrite List.Forall_forall in *. intros y Hy.
  apply filter_In in Hy as [Hy _]. auto.
Qed.

Lemma ssorted_app (l1 l2 : list A) :
  StronglySorted R l1 -> StronglySorted R l2 ->
  (forall x y, In x l1 -> In y l2 -> R x y) ->
  StronglySorted R (l1 ++ l2).
Proof.
  induction 1 as [|x l1 Hs IH Hall]; cbn [app]; intros H2 Hx; [exact H2|].
  constructor.
  - apply IH; [exact H2|]. intros y z Hy Hz. apply Hx; [right; exact Hy|exact Hz].
  - rewrite List.Forall_forall in *. intros y Hy.
    apply in_app_or in Hy as [Hy|Hy]; [auto|apply Hx; [left; reflexivity|exact Hy]].
Qed.

Lemma ssorted_map (g : A -> A) (l : list A) :
  (forall x y, R x y -> R (g x) (g y)) ->
  StronglySorted R l -> StronglySorted R (map g l).
Proof.
  intros Hg. induction 1 as [|x l Hs IH Hall]; cbn [map]; constructor; [exact IH|].
  rewrite List.Forall_forall in *. intros y Hy.
  apply in_map_iff in Hy as [z [<- Hz]]. auto.
Qed.

Lemma ssorted_all (l : list A) :
  (forall x y, In x l -> In y l -> R x y) -> StronglySorted R l.
Proof.
  induction l as [|x l IH]; intros H; constructor.
  - apply IH. intros y z Hy Hz. apply H; right; assumption.
  - apply List.Forall_forall. intros y Hy. apply H; [left; reflexivity|right; exact Hy].
Qed.

End SortedFacts.

(** The live set is listed oldest first: along the order in which
    [get_active_tracks] returns them, the ages of the live tracks never
    increase.  (So the tracks that [update] evicts are always the first
    ones of the dictionary.) *)
Theorem live_tracks_oldest_first (self : ByteTrack) :
  reachable self ->
  StronglySorted (fun older newer => last_seen newer <= last_seen older)
                 (live self).
Proof.
  induction 1 as [bs self Hinit|self c Hreach IH].
  - unfold init in Hinit. destruct (bs <? 0); [discriminate|].
    injection Hinit as <-. constructor.
  - destruct c as [dets|]; cbn [exec snd]; [|exact IH].
    pose proof (reachable_wf _ Hreach) as Hwf.
    rewrite (live_after_update self dets Hwf). apply ssorted_app.
    + apply ssorted_map; [intros x y Hxy; cbn [bump last_seen]; lia|].
      apply ssorted_filter, IH.
    + destruct (1 <=? buffer_size self); [|constructor].
      rewrite update_returns_fresh by exact Hwf.
      apply ssorted_all. intros x y Hx Hy.
      pose proof (fresh_tracks_age dets (next_id self)) as Hone.
      rewrite List.Forall_forall in Hone.
      rewrite (Hone x Hx), (Hone y Hy). lia.
    + intros x y Hx Hy.
      apply in_map_iff in Hx as [x0 [<- Hx0]]. apply filter_In in Hx0 as [Hx0 _].
      pose proof (live_ages self Hwf) as Hages.
      rewrite List.Forall_forall in Hages. specialize (Hages x0 Hx0).
      destruct (1 <=? buffer_size self); [|destruct Hy].
      rewrite update_returns_fresh in Hy by exact Hwf.
      pose proof (fresh_tracks_age dets (next_id self)) as Hone.
      rewrite List.Forall_forall in Hone. rewrite (Hone y Hy).
      cbn [bump last_seen]. lia.
Qed.

Lemma live_tracks_oldest_first_witness :
  reachable (run fresh30 [Update [d0]; Update [d1; d0]; Update [d1]]) /\
  map last_seen (live (run fresh30 [Update [d0]; Update [d1; d0]; Update [d1]]))
  = [3; 2; 2; 1] /\
  StronglySorted (fun older newer => last_seen newer <= last_seen older)
                 (live (run fresh30 [Update [d0]; Update [d1; d0]; Update [d1]])).
Proof.
  assert (Hr : reachable (run fresh30 [Update [d0]; Update [d1; d0]; Update [d1]])).
  { apply run_reachable, (reach_init 30). reflexivity. }
  split; [exact Hr|]. split; [reflexivity|].
  exact (live_tracks_oldest_first _ Hr).
Defined.

(** ** Runs that share the tracker *)





Lemma since_shift (n delta : Z) (l : list Track) :
  since (n + delta) (map (shift_id delta) l) = map (shift_id delta) (since n l).
Proof.
  unfold since. rewrite filter_map_swap. f_equal. apply filter_ext.
  intros tr. cbn [shift_id track_id].
  destruct (Z.leb_spec (n + delta) (track_id tr + delta));
    destruct (Z.leb_spec n (track_id tr)); try reflexivity; lia.
Qed.













(** * Further properties of the streaming loop *)

Lemma cycle_frame_count (interval : Z) (s : Session) (inp : Input) :
  frame_count (session (cycle interval s inp)) = frame_count s + frames_in [inp].
Proof.
  destruct inp as [| |raised|detect send]; cbn [cycle frames_in session]; try lia.
  destruct (should_run_detector (frame_count s + 1) interval) as [[|]|];
    [destruct detect as [dets|]| |]; cbn [session frame_count];
    rewrite ?(proj1 (finish_session _ _ _ _ _)); cbn [frame_count]; lia.
Qed.

Lemma cycle_reachable (interval : Z) (s : Session) (inp : Input) :
  reachable (tracker s) -> reachable (tracker (session (cycle interval s inp))).
Proof.
  intros Hr. destruct inp as [| |raised|detect send]; cbn [cycle session]; try exact Hr.
  destruct (should_run_detector (frame_count s + 1) interval) as [[|]|];
    [destruct detect as [dets|]| |]; cbn [session tracker];
    rewrite ?(proj1 (finish_session _ _ _ _ _)); cbn [tracker]; try exact Hr.
  apply (reach_exec (tracker s) (Update dets)), Hr.
Qed.

Lemma frames_in_app (l1 l2 : list Input) :
  frames_in (l1 ++ l2) = frames_in l1 + frames_in l2.
Proof.
  induction l1 as [|[| |raised|detect send] l1 IH]; cbn [app frames_in]; lia.
Qed.

(** The [i]-th turn of the loop is a turn of [cycle] on the [i]-th input,
    in a session that has counted the frames decoded before. *)
Lemma serve_lookup (interval : Z) (inputs : list Input) : forall s i o,
  serve interval s inputs !! i = Some o ->
  exists s' inp,
    inputs !! i = Some inp /\ o = cycle interval s' inp /\
    frame_count s' = frame_count s + frames_in (take i inputs) /\
    (reachable (tracker s) -> reachable (tracker s')).
Proof.
  induction inputs as [|inp inputs IH]; intros s i o Hlook; [destruct i; discriminate|].
  cbn [serve] in Hlook. destruct i as [|i].
  - injection Hlook as <-. exists s, inp. cbn [take frames_in]. repeat split; [lia|auto].
  - cbn [lookup list_lookup] in Hlook.
    destruct (status (cycle interval s inp)); try (destruct i; discriminate).
    apply IH in Hlook as [s' [inp' [Hinp [Ho [Hfc Hreach]]]]].
    exists s', inp'. split; [exact Hinp|]. split; [exact Ho|]. split.
    + rewrite Hfc, cycle_frame_count.
      change (take (S i) (inp :: inputs)) with ([inp] ++ take i inputs).
      rewrite frames_in_app. lia.
    + intros Hr. apply Hreach, cycle_reachable, Hr.
Qed.

Lemma cycle_calls_detector (interval : Z) (s : Session)
      (detect : option (list Detection)) (send : Send) :
  interval <> 0 ->
  In CallDetect (called (cycle interval s (Frame detect send))) <->
  (frame_count s + 1) mod interval = 0.
Proof.
  intros Hne. cbn [cycle]. rewrite should_run_detector_spec by exact Hne.
  destruct (Z.eqb_spec ((frame_count s + 1) mod interval) 0) as [Hz|Hnz].
  - split; [intros _; exact Hz|intros _].
    destruct detect as [dets|]; [|left; reflexivity].
    rewrite (proj2 (finish_session _ _ _ _ _)). left; reflexivity.
  - split; [|contradiction].
    rewrite (proj2 (finish_session _ _ _ _ _)).
    intros [Heq|[]]. discriminate.
Qed.

(** The cadence over a whole session: the detector runs on a turn exactly
    when the number of frames decoded so far in the session, this one
    included, plus the count the session started with, is a multiple of
    the interval.  Payloads that do not decode do not count. *)
Theorem detector_runs_on_multiples (interval : Z) (s : Session)
        (inputs : list Input) (i : nat) (o : Outcome)
        (detect : option (list Detection)) (send : Send) :
  interval <> 0 ->
  serve interval s inputs !! i = Some o ->
  inputs !! i = Some (Frame detect send) ->
  (In CallDetect (called o) <->
   (frame_count s + frames_in (take (S i) inputs)) mod interval = 0).
Proof.
  intros Hne Hlook Hinp.
  apply serve_lookup in Hlook as [s' [inp [Hinp' [-> [Hfc _]]]]].
  rewrite Hinp in Hinp'. injection Hinp' as <-.
  rewrite (take_S_r _ _ _ Hinp), frames_in_app. cbn [frames_in].
  rewrite cycle_calls_detector by exact Hne. rewrite Hfc.
  replace (frame_count s + frames_in (take i inputs) + 1)
    with (frame_count s + (frames_in (take i inputs) + (1 + 0))) by lia.
  reflexivity.
Qed.

Lemma detector_runs_on_multiples_witness :
  let inputs := [Frame (Some [d0]) SendOk; Undecodable true;
                 Frame (Some [d0]) SendOk; Frame (Some [d1]) SendOk] in
  2 <> 0 /\
  exists o,
    serve 2 (mkSession 0 fresh30) inputs !! 2%nat = Some o /\
    inputs !! 2%nat = Some (Frame (Some [d0]) SendOk) /\
    (In CallDetect (called o) <-> (0 + frames_in (take 3 inputs)) mod 2 = 0).
Proof.
  cbv zeta. split; [discriminate|]. eexists. split; [reflexivity|]. split; [reflexivity|].
  apply (detector_runs_on_multiples 2 (mkSession 0 fresh30)
           [Frame (Some [d0]) SendOk; Undecodable true;
            Frame (Some [d0]) SendOk; Frame (Some [d1]) SendOk]
           2%nat _ (Some [d0]) SendOk);
    [discriminate|reflexivity|reflexivity].
Defined.

(** The loop stops at the first turn that ends the session: no more turns
    are taken than there are inputs, and every turn but the last one
    leaves the session streaming. *)
Theorem serve_stops_at_first_failure (interval : Z) (inputs : list Input) :
  forall s,
  (length (serve interval s inputs) <= length inputs)%nat /\
  forall i o, serve interval s inputs !! i = Some o ->
              (S i < length (serve interval s inputs))%nat ->
              status o = Streaming.
Proof.
  induction inputs as [|inp inputs IH]; intros s; cbn [serve length].
  - split; [lia|]. intros i o H. destruct i; discriminate.
  - destruct (status (cycle interval s inp)) eqn:Hst; cbn [length].
    + destruct (IH (session (cycle interval s inp))) as [Hlen Hall].
      split; [lia|]. intros [|i] o Hlook Hlt.
      * injection Hlook as <-. exact Hst.
      * apply (Hall i o Hlook). lia.
    + split; [lia|]. intros i o _ Hlt. lia.
    + split; [lia|]. intros i o _ Hlt. lia.
Qed.

Lemma cycle_sent_ascending (interval : Z) (s : Session) (inp : Input)
      (dets : list Detection) (trs : list Track) :
  reachable (tracker s) ->
  sent (cycle interval s inp) = Some (dets, trs) ->
  StronglySorted Z.lt (map track_id trs).
Proof.
  intros Hr. apply reachable_wf in Hr as Hwf.
  destruct inp as [| |raised|detect send]; cbn [cycle sent]; try discriminate.
  destruct (should_run_detector (frame_count s + 1) interval) as [[|]|];
    [destruct detect as [ds|]| |]; cbn [sent]; try discriminate;
    destruct send; cbn [finish sent]; try discriminate; intros [= <- <-].
  - rewrite update_returns_fresh by exact Hwf.
    rewrite (fresh_tracks_ids ds (next_id (tracker s)) (length (objs (tracker s)))).
    apply fresh_items_keys_sorted.
  - change (view (tracker s) (get_active_tracks (tracker s))) with (live (tracker s)).
    rewrite live_ids by exact Hwf. apply (wf_sorted _ Hwf).
Qed.

(** Every list of tracks that the loop hands to the drawing and sending
    stage is in strictly ascending order of id; in particular no frame
    shows two tracks with the same id. *)
Theorem sent_tracks_ascending (interval : Z) (s : Session) (inputs : list Input)
        (i : nat) (o : Outcome) (dets : list Detection) (trs : list Track) :
  reachable (tracker s) ->
  serve interval s inputs !! i = Some o ->
  sent o = Some (dets, trs) ->
  StronglySorted Z.lt (map track_id trs) /\ List.NoDup (map track_id trs).
Proof.
  intros Hr Hlook Hsent.
  apply serve_lookup in Hlook as [s' [inp [_ [-> [_ Hreach]]]]].
  assert (Hs : StronglySorted Z.lt (map track_id trs))
    by (eapply cycle_sent_ascending; [apply Hreach, Hr|exact Hsent]).
  split; [exact Hs|apply sorted_keys_NoDup, Hs].
Qed.

Lemma sent_tracks_ascending_witness :
  reachable (tracker (mkSession 0 one_track)) /\
  exists o,
    serve 2 (mkSession 0 one_track)
          [Frame None SendOk; Frame (Some [d1; d0]) SendOk] !! 1%nat = Some o /\
    exists trs, sent o = Some ([d1; d0], trs) /\ map track_id trs = [1; 2] /\
                StronglySorted Z.lt (map track_id trs).
Proof.
  split; [exact one_track_reachable|]. eexists. split; [reflexivity|].
  eexists. split; [reflexivity|]. split; [reflexivity|].
  exact (proj1 (sent_tracks_ascending 2 (mkSession 0 one_track)
                  [Frame None SendOk; Frame (Some [d1; d0]) SendOk] 1%nat _ _ _
                  one_track_reachable eq_refl eq_refl)).
Defined.

(** On a frame where the detector runs and the result is sent, the tracks
    handed on with the detections are the tracks made for these very
    detections: one per detection, with its box and class, of age 1 and
    with an id not used before.  No track of an earlier frame is among
    them, though the earlier tracks stay in the tracker. *)
Theorem detection_frame_shows_new_tracks_only (interval : Z) (s : Session)
        (dets : list Detection) :
  reachable (tracker s) ->
  should_run_detector (frame_count s + 1) interval = Some true ->
  let o := cycle interval s (Frame (Some dets) SendOk) in
  exists trs,
    sent o = Some (dets, trs) /\
    map track_box trs = map det_box dets /\
    map track_class trs = map det_class dets /\
    List.Forall (fun tr => last_seen tr = 1 /\ next_id (tracker s) <= track_id tr) trs /\
    tracker (session o) = snd (update (tracker s) dets).
Proof.
  intros Hr Hrun. apply reachable_wf in Hr as Hwf. cbn [cycle]. rewrite Hrun.
  cbn [finish sent session tracker].
  eexists. split; [reflexivity|].
  rewrite update_returns_fresh by exact Hwf.
  destruct (fresh_tracks_fields dets (next_id (tracker s))) as [Hb [Hc [_ Hi]]].
  split; [exact Hb|]. split; [exact Hc|]. split; [|reflexivity].
  apply List.Forall_forall. intros tr Htr. split.
  - pose proof (fresh_tracks_age dets (next_id (tracker s))) as Hone.
    rewrite List.Forall_forall in Hone. apply Hone, Htr.
  - apply (in_map track_id) in Htr. rewrite Hi in Htr.
    apply list_elem_of_In, elem_of_seqZ in Htr. lia.
Qed.

Lemma detection_frame_shows_new_tracks_only_witness :
  reachable (tracker (mkSession 4 one_track)) /\
  should_run_detector (4 + 1) 5 = Some true /\
  exists trs,
    sent (cycle 5 (mkSession 4 one_track) (Frame (Some [d1]) SendOk))
    = Some ([d1], trs) /\
    map track_class trs = ["bicycle"].
Proof.
  split; [exact one_track_reachable|]. split; [reflexivity|].
  destruct (detection_frame_shows_new_tracks_only 5 (mkSession 4 one_track) [d1]
              one_track_reachable eq_refl) as [trs [Hs [_ [Hc _]]]].
  exists trs. split; [exact Hs|exact Hc].
Defined.

(** The sign of the interval does not matter and a zero interval is
    fatal: [frame_count % interval == 0] gives the same answer for
    [interval] and [-interval], and with interval 0 the first frame that
    decodes ends the session, before any collaborator is called. *)
Theorem interval_sign_and_zero :
  (forall frame_count interval,
      should_run_detector frame_count (- interval) =
      should_run_detector frame_count interval) /\
  (forall s detect send rest,
      serve 0 s (Frame detect send :: rest) =
      [mkOutcome (mkSession (frame_count s + 1) (tracker s)) Failed [] None]).
Proof.
  split; [|reflexivity].
  intros fc interval. unfold should_run_detector, py_mod.
  destruct (Z.eqb_spec interval 0) as [->|Hne]; [reflexivity|].
  destruct (Z.eqb_spec (- interval) 0) as [Hz|_]; [lia|].
  cbn [option_map]. f_equal.
  destruct (Z.eqb_spec (fc mod interval) 0) as [Hm|Hm];
    destruct (Z.eqb_spec (fc mod - interval) 0) as [Hm'|Hm']; try reflexivity; exfalso.
  - apply Hm'. apply Z.mod_divide; [lia|]. apply Z.divide_opp_l.
    apply Z.mod_divide; [exact Hne|exact Hm].
  - apply Hm. apply Z.mod_divide; [exact Hne|].
    apply Z.divide_opp_l. rewrite <- Z.mod_divide by lia. exact Hm'.
Qed.

(** * The upload route *)

(** [detect_image] never answers with status 400.  The
    [HTTPException(400)] that the body raises for an upload that is not an
    image is caught by the [except Exception] of the same function, so the
    client gets status 500, as for any other failure; detections are
    returned exactly when the upload decodes and the detector returns. *)
Theorem detect_image_never_answers_400 :
  (forall u e, detect_image u = inl e -> e = HTTPException 500) /\
  detect_image_body NotAnImage = inl (HTTPException 400) /\
  detect_image NotAnImage = inl (HTTPException 500) /\
  (forall u dets, detect_image u = inr dets <-> u = Image (Some dets)).
Proof.
  split; [|split; [reflexivity|split; [reflexivity|]]].
  - intros [| |[dets|]] e; cbn; intros H; inversion H; reflexivity.
  - intros [| |[ds|]] dets; cbn; split; intros H; inversion H; reflexivity.
Qed.

(** * Class names of the training set *)

Lemma enumerate_from_fst {A : Type} (l : list A) : forall n,
  map fst (enumerate_from n l) = seqZ n (Z.of_nat (length l)).
Proof.
  induction l as [|x l IH]; intros n; [reflexivity|].
  cbn [enumerate_from map fst length].
  rewrite (seqZ_cons n (Z.of_nat (S (length l)))) by lia.
  rewrite IH. do 2 f_equal; lia.
Qed.

Lemma enumerate_from_snd {A : Type} (l : list A) : forall n,
  map snd (enumerate_from n l) = l.
Proof. induction l as [|x l IH]; intros n; cbn [enumerate_from map snd]; [|rewrite IH]; reflexivity. Qed.

Lemma setitem_enumerate (l : list string) : forall n (d : PyDict.t string),
  (forall k, In k (PyDict.keys d) -> k < n) ->
  fold_left (fun d item => PyDict.setitem (fst item) (snd item) d)
            (enumerate_from n l) d = d ++ enumerate_from n l.
Proof.
  induction l as [|x l IH]; intros n d Hd; cbn [enumerate_from fold_left fst snd].
  - rewrite app_nil_r. reflexivity.
  - rewrite setitem_fresh by (intros Hin; apply Hd in Hin; lia).
    rewrite IH.
    + rewrite <- app_assoc. reflexivity.
    + intros k Hk. unfold PyDict.keys in Hk. rewrite map_app in Hk.
      apply in_app_or in Hk as [Hk|[<-|[]]]; [apply Hd in Hk; lia|cbn; lia].
Qed.

(** The class table written to [dataset.yaml] lists the class names in
    their order under the ids 0, 1, 2, ...: the ids are positions in the
    list, whatever ids the names had in the model. *)
Theorem dataset_names_enumerates (class_names : list string) :
  PyDict.values (dataset_names class_names) = class_names /\
  PyDict.keys (dataset_names class_names) = seqZ 0 (Z.of_nat (length class_names)).
Proof.
  unfold dataset_names. rewrite setitem_enumerate by (intros k []).
  cbn [app]. unfold PyDict.values, PyDict.keys.
  split; [apply enumerate_from_snd|apply enumerate_from_fst].
Qed.

Lemma enumerate_values (names : PyDict.t string) : forall n,
  PyDict.keys names = seqZ n (Z.of_nat (length names)) ->
  enumerate_from n (PyDict.values names) = names.
Proof.
  induction names as [|[k v] names IH]; intros n Hk; [reflexivity|].
  unfold PyDict.keys, PyDict.values in *. cbn [map fst snd length enumerate_from] in *.
  rewrite (seqZ_cons n (Z.of_nat (S (length names)))) in Hk by lia.
  injection Hk as -> Hk. f_equal. apply IH. rewrite Hk. f_equal; lia.
Qed.

(** Round trip of the class table: when the model numbers its classes 0,
    1, 2, ... in order, the table built from the model's class names is
    the model's own table. *)
Theorem dataset_names_round_trip (names : PyDict.t string) :
  PyDict.keys names = seqZ 0 (Z.of_nat (length names)) ->
  dataset_names (class_names_of (Some names)) = names.
Proof.
  intros Hk. unfold dataset_names, class_names_of.
  rewrite setitem_enumerate by (intros k []). cbn [app].
  apply enumerate_values, Hk.
Qed.

Lemma dataset_names_round_trip_witness :
  PyDict.keys [(0, "person"); (1, "bicycle")] = seqZ 0 2 /\
  dataset_names (class_names_of (Some [(0, "person"); (1, "bicycle")]))
  = [(0, "person"); (1, "bicycle")].
Proof.
  split; [reflexivity|].
  exact (dataset_names_round_trip [(0, "person"); (1, "bicycle")] eq_refl).
Defined.

(** * Frame collection *)

Lemma collect_loop_spec (interval max_frames : Z) (reads : list bool) :
  forall frame_count saved,
  exists new,
    fst (collect_loop interval max_frames reads frame_count saved) = saved ++ new /\
    StronglySorted Z.lt new /\
    (forall x, In x new ->
       frame_count < x <= frame_count + Z.of_nat (length reads) /\
       interval <> 0 /\ x mod interval = 0) /\
    (0 < max_frames -> Z.of_nat (length saved) < max_frames ->
     Z.of_nat (length (saved ++ new)) <= max_frames).
Proof.
  induction reads as [|quit reads IH]; intros fc saved; cbn [collect_loop].
  - exists []. rewrite app_nil_r. cbn [fst].
    split; [reflexivity|]. split; [constructor|]. split; [intros x []|lia].
  - unfold py_mod. destruct (Z.eqb_spec interval 0) as [Hz|Hnz].
    { exists []. rewrite app_nil_r. cbn [fst].
      split; [reflexivity|]. split; [constructor|]. split; [intros x []|lia]. }
    assert (Hstop : forall sv, exists new,
               sv = sv ++ new /\ StronglySorted Z.lt new /\
               (forall x, In x new ->
                  fc + 1 < x <= fc + 1 + Z.of_nat (length reads) /\
                  interval <> 0 /\ x mod interval = 0) /\
               (0 < max_frames -> Z.of_nat (length sv) < max_frames ->
                Z.of_nat (length (sv ++ new)) <= max_frames)).
    { intros sv. exists []. rewrite app_nil_r.
      split; [reflexivity|]. split; [constructor|]. split; [intros x []|lia]. }
    assert (Hnext : forall sv, exists new,
               fst (if quit then (sv, false)
                    else collect_loop interval max_frames reads (fc + 1) sv)
               = sv ++ new /\ StronglySorted Z.lt new /\
               (forall x, In x new ->
                  fc + 1 < x <= fc + 1 + Z.of_nat (length reads) /\
                  interval <> 0 /\ x mod interval = 0) /\
               (0 < max_frames -> Z.of_nat (length sv) < max_frames ->
                Z.of_nat (length (sv ++ new)) <= max_frames)).
    { intros sv. destruct quit; [apply Hstop|apply IH]. }
    destruct (Z.eqb_spec ((fc + 1) mod interval) 0) as [Hm|Hm].
    + assert (Hlen : Z.of_nat (length (saved ++ [fc + 1])) = Z.of_nat (length saved) + 1)
        by (rewrite length_app; cbn [length]; lia).
      destruct ((0 <? max_frames) &&
                (max_frames <=? Z.of_nat (length (saved ++ [fc + 1])))) eqn:Hmax.
      * exists [fc + 1]. cbn [fst]. split; [reflexivity|].
        split; [repeat constructor|]. split.
        -- intros x [<-|[]]. cbn [length]. repeat split; [lia|lia|exact Hnz|exact Hm].
        -- intros Hpos Hlt. lia.
      * destruct (Hnext (saved ++ [fc + 1])) as [new [Heq [Hs [Hin Hb]]]].
        exists ((fc + 1) :: new). rewrite Heq, <- app_assoc. cbn [app].
        split; [reflexivity|]. split; [|split].
        -- constructor; [exact Hs|]. apply List.Forall_forall.
           intros x Hx. apply Hin in Hx. lia.
        -- intros x [<-|Hx]; [|apply Hin in Hx]; cbn [length];
             repeat split; try tauto; lia.
        -- intros Hpos Hlt.
           replace (saved ++ (fc + 1) :: new) with ((saved ++ [fc + 1]) ++ new)
             by (rewrite <- app_assoc; reflexivity).
           apply Hb; [exact Hpos|].
           apply andb_false_iff in Hmax as [Hmax|Hmax];
             [apply Z.ltb_ge in Hmax|apply Z.leb_gt in Hmax]; lia.
    + destruct (Hnext saved) as [new [Heq [Hs [Hin Hb]]]].
      exists new. split; [exact Heq|]. split; [exact Hs|]. split; [|exact Hb].
      intros x Hx. apply Hin in Hx. cbn [length]. repeat split; try tauto; lia.
Qed.

(** What [collect_frames] writes and how it ends.  The call ends with an
    [UnboundLocalError] exactly when the source cannot be opened, and it
    has then written nothing.  Otherwise it returns, whatever the interval,
    and the frames it has written are, in ascending order, frames whose
    number is a multiple of the interval; when [max_frames] is positive
    there are at most [max_frames] of them. *)
Theorem collect_frames_written (opened : bool) (interval max_frames : Z)
        (reads : list bool) :
  let r := collect_frames opened interval max_frames reads in
  (snd r = UnboundLocalError <-> opened = false) /\
  (opened = false -> fst r = []) /\
  StronglySorted Z.lt (fst r) /\
  List.Forall (fun n => 1 <= n <= Z.of_nat (length reads) /\ n mod interval = 0)
              (fst r) /\
  (0 < max_frames -> Z.of_nat (length (fst r)) <= max_frames).
Proof.
  cbv zeta. unfold collect_frames. destruct opened; cbn [fst snd].
  - destruct (collect_loop_spec interval max_frames reads 0 [])
      as [new [Heq [Hs [Hin Hb]]]].
    rewrite Heq. cbn [app] in *.
    split; [split; discriminate|]. split; [discriminate|]. split; [exact Hs|].
    split; [|intros Hpos; apply Hb; cbn [length]; lia].
    apply List.Forall_forall. intros x Hx. apply Hin in Hx. split; [lia|tauto].
  - split; [split; reflexivity|]. split; [reflexivity|]. split; [constructor|].
    split; [constructor|cbn [length]; lia].
Qed.

Lemma div_step (n i : Z) :
  1 <= i -> (n + 1) / i = n / i + (if (n + 1) mod i =? 0 then 1 else 0).
Proof.
  intros Hi. destruct (Z.eqb_spec ((n + 1) mod i) 0) as [Hm|Hm];
    Z.div_mod_to_equations; nia.
Qed.

Lemma collect_loop_count (interval max_frames : Z) (reads : list bool) :
  1 <= interval -> max_frames <= 0 -> List.Forall (fun quit => quit = false) reads ->
  forall frame_count saved,
  Z.of_nat (length (fst (collect_loop interval max_frames reads frame_count saved)))
  = Z.of_nat (length saved)
    + (frame_count + Z.of_nat (length reads)) / interval - frame_count / interval.
Proof.
  intros Hi Hmax Hq. induction Hq as [|quit reads -> Hq IH]; intros fc saved;
    cbn [collect_loop length].
  - cbn [fst]. rewrite Z.add_0_r. lia.
  - unfold py_mod. destruct (Z.eqb_spec interval 0) as [Hz|_]; [lia|].
    replace (0 <? max_frames) with false by (symmetry; apply Z.ltb_ge; exact Hmax).
    cbn [andb].
    pose proof (div_step fc interval Hi) as Hstep.
    replace (fc + Z.of_nat (S (length reads)))
      with (fc + 1 + Z.of_nat (length reads)) by lia.
    destruct ((fc + 1) mod interval =? 0); rewrite IH.
    + rewrite length_app. cbn [length]. lia.
    + lia.
Qed.

(** Without a limit and without the key q, [collect_frames] writes every
    [interval]-th frame: of [n] frames read it writes [n / interval]. *)
Theorem collect_frames_every_nth (interval max_frames : Z) (reads : list bool) :
  1 <= interval -> max_frames <= 0 ->
  List.Forall (fun quit => quit = false) reads ->
  Z.of_nat (length (fst (collect_frames true interval max_frames reads)))
  = Z.of_nat (length reads) / interval.
Proof.
  intros Hi Hmax Hq. unfold collect_frames. cbn [fst].
  rewrite collect_loop_count by assumption.
  cbn [length Z.of_nat]. rewrite (Z.add_0_l (Z.of_nat (length reads))), Zdiv_0_l. lia.
Qed.

Lemma collect_frames_every_nth_witness :
  1 <= 3 /\ 0 <= 0 /\
  List.Forall (fun quit => quit = false) (repeat false 10) /\
  fst (collect_frames true 3 0 (repeat false 10)) = [3; 6; 9] /\
  Z.of_nat (length (fst (collect_frames true 3 0 (repeat false 10)))) = 10 / 3.
Proof.
  assert (H1 : 1 <= 3) by lia. assert (H0 : 0 <= 0) by lia.
  assert (Hq : List.Forall (fun quit => quit = false) (repeat false 10))
    by (repeat constructor).
  split; [exact H1|]. split; [exact H0|]. split; [exact Hq|].
  split; [reflexivity|].
  exact (collect_frames_every_nth 3 0 (repeat false 10) H1 H0 Hq).
Defined.

(** * Drawing *)

Lemma unpack4_length (box : list Z) :
  is_Some (unpack4 box) <-> length box = 4%nat.
Proof.
  destruct box as [|x1 [|y1 [|x2 [|y2 [|z rest]]]]]; cbn [unpack4 length];
    split; intros H; try discriminate; try (destruct H; discriminate);
    try reflexivity.
  eexists. reflexivity.
Qed.

Lemma drawable_four (point_ok : Z * Z -> bool) (box : list Z) :
  drawable point_ok box = true -> length box = 4%nat.
Proof.
  intros H. apply unpack4_length. unfold drawable in H.
  destruct (unpack4 box); [eexists; reflexivity|discriminate].
Qed.

Section DrawingFacts.
Variable point_ok : Z * Z -> bool.
Context {A : Type} (body : A -> option (list DrawOp)) (box_of : A -> list Z).
Hypothesis body_ok : forall x, is_Some (body x) <-> drawable point_ok (box_of x) = true.
Hypothesis body_two : forall x ops, body x = Some ops -> length ops = 2%nat.

Lemma draw_each_ok (l : list A) :
  is_Some (draw_each body l) <->
  List.Forall (fun box => drawable point_ok box = true) (map box_of l).
Proof.
  induction l as [|x l IH]; cbn [draw_each map].
  - split; [constructor|eexists; reflexivity].
  - rewrite Forall_cons_iff, <- IH, <- body_ok.
    destruct (body x) as [ops|]; [destruct (draw_each body l) as [ops'|]|];
      split; try (intros [[? ?] [? ?]]); try (intros [? ?]);
      try discriminate; try (split; eexists; reflexivity);
      try (eexists; reflexivity).
Qed.

Lemma draw_each_length (l : list A) (ops : list DrawOp) :
  draw_each body l = Some ops -> length ops = (2 * length l)%nat.
Proof.
  revert ops. induction l as [|x l IH]; cbn [draw_each length]; intros ops H.
  - injection H as <-. reflexivity.
  - destruct (body x) as [o|] eqn:Hb; [|discriminate].
    destruct (draw_each body l) as [o'|]; [|discriminate].
    injection H as <-. rewrite length_app, (body_two x o Hb), (IH o' eq_refl). lia.
Qed.

End DrawingFacts.

Section DrawBoxesFacts.
Variable format_2f : Q -> string.
Variable point_ok : Z * Z -> bool.

Lemma draw_detection_ok (det : Detection) :
  is_Some (draw_detection format_2f point_ok det) <->
  drawable point_ok (det_box det) = true.
Proof.
  unfold draw_detection, drawable, cv2_rectangle, cv2_putText.
  destruct (unpack4 (det_box det)) as [[[[x1 y1] x2] y2]|];
    [|split; [intros [? H]; discriminate|discriminate]].
  destruct (point_ok (x1, y1)), (point_ok (x2, y2)), (point_ok (x1, y1 - 10));
    cbn [andb]; split; intros H; try discriminate;
    try (destruct H; discriminate); try reflexivity; eexists; reflexivity.
Qed.

Lemma draw_detection_two (det : Detection) ops :
  draw_detection format_2f point_ok det = Some ops -> length ops = 2%nat.
Proof.
  unfold draw_detection, cv2_rectangle, cv2_putText.
  destruct (unpack4 (det_box det)) as [[[[x1 y1] x2] y2]|]; [|discriminate].
  destruct (point_ok (x1, y1) && point_ok (x2, y2)); [|discriminate].
  destruct (point_ok (x1, y1 - 10)); [|discriminate].
  intros [= <-]. reflexivity.
Qed.

Lemma draw_track_ok (tr : Track) :
  is_Some (draw_track point_ok tr) <-> drawable point_ok (track_box tr) = true.
Proof.
  unfold draw_track, drawable, cv2_rectangle, cv2_putText.
  destruct (unpack4 (track_box tr)) as [[[[x1 y1] x2] y2]|];
    [|split; [intros [? H]; discriminate|discriminate]].
  destruct (point_ok (x1, y1)), (point_ok (x2, y2)), (point_ok (x1, y1 - 10));
    cbn [andb]; split; intros H; try discriminate;
    try (destruct H; discriminate); try reflexivity; eexists; reflexivity.
Qed.

Lemma draw_track_two (tr : Track) ops :
  draw_track point_ok tr = Some ops -> length ops = 2%nat.
Proof.
  unfold draw_track, cv2_rectangle, cv2_putText.
  destruct (unpack4 (track_box tr)) as [[[[x1 y1] x2] y2]|]; [|discriminate].
  destruct (point_ok (x1, y1) && point_ok (x2, y2)); [|discriminate].
  destruct (point_ok (x1, y1 - 10)); [|discriminate].
  intros [= <-]. reflexivity.
Qed.

Lemma draw_boxes_spec (dets : list Detection) (tracks : option (list Track)) :
  (is_Some (draw_boxes format_2f point_ok dets tracks) <->
   List.Forall (fun box => drawable point_ok box = true)
               (map det_box dets ++
                map track_box (match tracks with Some trs => trs | None => [] end))) /\
  (forall ops, draw_boxes format_2f point_ok dets tracks = Some ops ->
               length ops =
               (2 * (length dets +
                     length (match tracks with Some trs => trs | None => [] end)))%nat).
Proof.
  pose proof (draw_each_ok point_ok (draw_detection format_2f point_ok) det_box
                draw_detection_ok dets) as Hd.
  pose proof (draw_each_length (draw_detection format_2f point_ok)
                draw_detection_two dets) as Hdl.
  unfold draw_boxes. rewrite Forall_app, <- Hd.
  destruct (draw_each (draw_detection format_2f point_ok) dets) as [ops|].
  - specialize (Hdl ops eq_refl).
    destruct tracks as [[|tr trs]|]; cbn [map length].
    + split; [split; [intros _; split; [eexists; reflexivity|constructor]
                     |intros _; eexists; reflexivity]|].
      intros ? [= <-]. lia.
    + pose proof (draw_each_ok point_ok (draw_track point_ok) track_box
                    draw_track_ok (tr :: trs)) as Ht.
      pose proof (draw_each_length (draw_track point_ok) draw_track_two
                    (tr :: trs)) as Htl.
      cbn [map length] in Ht, Htl. rewrite <- Ht.
      destruct (draw_each (draw_track point_ok) (tr :: trs)) as [ops'|].
      * split; [split; [intros _; split; eexists; reflexivity
                       |intros _; eexists; reflexivity]|].
        intros ? [= <-]. rewrite length_app, Hdl, (Htl ops' eq_refl). lia.
      * split; [split; [intros [? H]; discriminate
                       |intros [_ [? H]]; discriminate]|].
        intros ? H; discriminate.
    + split; [split; [intros _; split; [eexists; reflexivity|constructor]
                     |intros _; eexists; reflexivity]|].
      intros ? [= <-]. lia.
  - split; [split; [intros [? H]; discriminate|intros [[? H] _]; discriminate]|].
    intros ? H; discriminate.
Qed.

End DrawBoxesFacts.

(** [draw_boxes] returns exactly when every box, of a detection or of a
    track, has four coordinates and OpenCV takes its two corners and the
    place of its label, ten rows above the first corner; it raises
    otherwise, in particular for every box that does not have four
    coordinates.  When it returns it has drawn one rectangle and one label
    for each detection and for each track. *)
Theorem draw_boxes_returns_iff_drawable (format_2f : Q -> string)
        (point_ok : Z * Z -> bool)
        (dets : list Detection) (tracks : option (list Track)) :
  let boxes := map det_box dets ++
               map track_box (match tracks with Some trs => trs | None => [] end) in
  (is_Some (draw_boxes format_2f point_ok dets tracks) <->
   List.Forall (fun box => drawable point_ok box = true) boxes) /\
  (is_Some (draw_boxes format_2f point_ok dets tracks) ->
   List.Forall (fun box => length box = 4%nat) boxes) /\
  (forall ops, draw_boxes format_2f point_ok dets tracks = Some ops ->
               length ops =
               (2 * (length dets +
                     length (match tracks with Some trs => trs | None => [] end)))%nat).
Proof.
  cbv zeta. destruct (draw_boxes_spec format_2f point_ok dets tracks) as [Hok Hlen].
  split; [exact Hok|]. split; [|exact Hlen].
  intros H. apply Hok in H. eapply List.Forall_impl; [|exact H].
  apply drawable_four.
Qed.

(** With the range of a C int for the points, a box of four coordinates
    is refused when a coordinate is out of the range or when the label
    would be placed above it. *)
Example draw_boxes_out_of_range :
  draw_boxes (fun _ => "0.50") c_int_point
             [mkDetection [0; 0; 3000000000; 10] (1 # 2) "person"] None = None /\
  draw_boxes (fun _ => "0.50") c_int_point
             [mkDetection [0; -2147483645; 5; 10] (1 # 2) "person"] None = None.
Proof. vm_compute. split; reflexivity. Qed.

(** Drawing on a detection frame: the tracks that [update] returns carry
    the boxes of the detections, so they add no failure: drawing the
    detections together with them returns exactly when drawing the
    detections alone does, that is when every detection has a box that can
    be drawn, and then each box is drawn twice. *)
Theorem draw_boxes_after_update (format_2f : Q -> string)
        (point_ok : Z * Z -> bool) (self : ByteTrack) (dets : list Detection) :
  reachable self ->
  let r := update self dets in
  let trs := view (snd r) (fst r) in
  (is_Some (draw_boxes format_2f point_ok dets (Some trs)) <->
   is_Some (draw_boxes format_2f point_ok dets None)) /\
  (is_Some (draw_boxes format_2f point_ok dets (Some trs)) <->
   List.Forall (fun det => drawable point_ok (det_box det) = true) dets) /\
  (forall ops, draw_boxes format_2f point_ok dets (Some trs) = Some ops ->
               length ops = (4 * length dets)%nat).
Proof.
  intros Hr. apply reachable_wf in Hr as Hwf. cbv zeta.
  destruct (draw_boxes_spec format_2f point_ok dets
              (Some (view (snd (update self dets)) (fst (update self dets)))))
    as [Hok Hlen].
  destruct (draw_boxes_spec format_2f point_ok dets None) as [Hok0 _].
  cbn beta iota in Hok, Hlen, Hok0.
  rewrite update_returns_fresh in * by exact Hwf.
  destruct (fresh_tracks_fields dets (next_id self)) as [Hb _].
  rewrite Hb in Hok. cbn [map] in Hok0. rewrite app_nil_r in Hok0.
  rewrite Forall_app, List.Forall_map in Hok. rewrite List.Forall_map in Hok0.
  split; [rewrite Hok, Hok0; tauto|]. split; [rewrite Hok; tauto|].
  intros ops Hops. rewrite (Hlen ops Hops), length_map, fresh_tracks_length. lia.
Qed.

Lemma draw_boxes_after_update_witness :
  reachable one_track /\
  let r := update one_track [d1] in
  is_Some (draw_boxes (fun _ => "0.80") c_int_point [d1]
                      (Some (view (snd r) (fst r)))).
Proof.
  split; [exact one_track_reachable|]. cbv zeta.
  apply (draw_boxes_after_update (fun _ => "0.80") c_int_point one_track [d1]
           one_track_reachable).
  repeat constructor.
Defined.

(** * The detector's result list *)

Lemma unpack_row_length (row : list Q) xyxy conf cls :
  unpack_row row = Some (xyxy, conf, cls) -> row = xyxy ++ [conf; cls].
Proof.
  unfold unpack_row. destruct (rev row) as [|c [|f front]] eqn:Hrev; try discriminate.
  intros [= <- <- <-]. rewrite <- (rev_involutive row), Hrev.
  cbn [rev]. rewrite <- app_assoc. reflexivity.
Qed.

Lemma detect_rows_boxes (round2 : Q -> Q) (names : PyDict.t string)
      (rows : list (list Q)) : forall dets,
  detect_rows round2 names rows = Some dets ->
  map (fun det => (length (det_box det) + 2)%nat) dets = map length rows /\
  List.Forall (fun det => exists k, dict_getitem k names = Some (det_class det)) dets.
Proof.
  induction rows as [|row rows IH]; cbn [detect_rows]; intros dets H.
  - injection H as <-. split; constructor.
  - destruct (detect_row round2 names row) as [det|] eqn:Hrow; [|discriminate].
    destruct (detect_rows round2 names rows) as [ds|]; [|discriminate].
    injection H as <-. destruct (IH ds eq_refl) as [IHl IHc].
    unfold detect_row in Hrow.
    destruct (unpack_row row) as [[[xyxy conf] cls]|] eqn:Hun; [|discriminate].
    destruct (dict_getitem (py_int cls) names) as [label|] eqn:Hget; [|discriminate].
    injection Hrow as <-. apply unpack_row_length in Hun. subst row.
    cbn [map det_box det_class]. split.
    + rewrite IHl, length_map, length_app. reflexivity.
    + constructor; [exists (py_int cls); exact Hget|exact IHc].
Qed.

(** What [detect] returns, and what drawing it takes.  When the rows of
    the model's answer have six entries, as the rows of a detection model
    do, a result of [detect] has one detection per row, each with a box of
    four coordinates and a class of the model's table; without a model
    [detect] returns the empty list.  So [draw_boxes] never fails on the
    result by an unpacking: it returns exactly when OpenCV takes the
    points of every box. *)
Theorem detect_result_draws (round2 : Q -> Q) (format_2f : Q -> string)
        (point_ok : Z * Z -> bool)
        (names : option (PyDict.t string)) (results : list (list (list Q)))
        (dets : list Detection) :
  detect round2 names results = Some dets ->
  (forall row, In row (concat results) -> length row = 6%nat) ->
  (names = None -> dets = []) /\
  (names <> None -> length dets = length (concat results)) /\
  List.Forall (fun det => length (det_box det) = 4%nat) dets /\
  (forall nm, names = Some nm ->
     List.Forall (fun det => exists k, dict_getitem k nm = Some (det_class det)) dets) /\
  (is_Some (draw_boxes format_2f point_ok dets None) <->
   List.Forall
     (fun det => forall x1 y1 x2 y2, det_box det = [x1; y1; x2; y2] ->
                   point_ok (x1, y1) && point_ok (x2, y2) && point_ok (x1, y1 - 10)
                   = true) dets).
Proof.
  intros Hdet Hrows.
  assert (Hfour : List.Forall (fun det => length (det_box det) = 4%nat) dets).
  { destruct names as [nm|]; cbn [detect] in Hdet; [|injection Hdet as <-; constructor].
    apply detect_rows_boxes in Hdet as [Hlen _].
    apply List.Forall_forall. intros det Hin.
    apply (in_map (fun det => (length (det_box det) + 2)%nat)) in Hin.
    rewrite Hlen in Hin. apply in_map_iff in Hin as [row [Hrow Hin]].
    apply Hrows in Hin. lia. }
  split; [|split; [|split; [exact Hfour|split]]].
  - intros ->. cbn [detect] in Hdet. injection Hdet as <-. reflexivity.
  - destruct names as [nm|]; [intros _|intros H; contradiction].
    cbn [detect] in Hdet. apply detect_rows_boxes in Hdet as [Hlen _].
    rewrite <- (length_map (fun det => (length (det_box det) + 2)%nat)), Hlen.
    apply length_map.
  - intros nm ->. cbn [detect] in Hdet.
    apply detect_rows_boxes in Hdet as [_ Hcls]. exact Hcls.
  - rewrite (proj1 (draw_boxes_spec format_2f point_ok dets None)).
    cbn [map]. rewrite app_nil_r, List.Forall_map.
    rewrite List.Forall_forall in Hfour. rewrite !List.Forall_forall.
    split; intros H det Hin; specialize (H det Hin); specialize (Hfour det Hin).
    + intros x1 y1 x2 y2 Hbox. unfold drawable in H. rewrite Hbox in H. exact H.
    + unfold drawable.
      destruct (det_box det) as [|x1 [|y1 [|x2 [|y2 [|z rest]]]]]; try discriminate.
      cbn [unpack4]. apply H. reflexivity.
Qed.

Lemma detect_result_draws_witness :
  let names := Some [(0, "person"); (1, "bicycle")] in
  let results := [[[10 # 1; 10 # 1; 101 # 2; 50 # 1; 9 # 10; 0 # 1];
                   [60 # 1; 60 # 1; 100 # 1; 100 # 1; 8 # 10; 1 # 1]]] in
  let dets := [mkDetection [10; 10; 50; 50] (9 # 10) "person";
               mkDetection [60; 60; 100; 100] (8 # 10) "bicycle"] in
  detect (fun q => q) names results = Some dets /\
  (forall row, In row (concat results) -> length row = 6%nat) /\
  List.Forall (fun det => length (det_box det) = 4%nat) dets.
Proof.
  cbv zeta.
  assert (Hrows : forall row,
             In row (concat [[[10 # 1; 10 # 1; 101 # 2; 50 # 1; 9 # 10; 0 # 1];
                              [60 # 1; 60 # 1; 100 # 1; 100 # 1; 8 # 10; 1 # 1]]]) ->
             length row = 6%nat).
  { intros row [<-|[<-|[]]]; reflexivity. }
  split; [reflexivity|]. split; [exact Hrows|].
  exact (proj1 (proj2 (proj2
           (detect_result_draws (fun q => q) (fun _ => "0.90") c_int_point
              (Some [(0, "person"); (1, "bicycle")])
              [[[10 # 1; 10 # 1; 101 # 2; 50 # 1; 9 # 10; 0 # 1];
                [60 # 1; 60 # 1; 100 # 1; 100 # 1; 8 # 10; 1 # 1]]]
              _ eq_refl Hrows)))).
Defined.

(** A row with a coordinate beyond the range of a C int: [detect] returns
    it as a box of four coordinates, and the drawing call refuses it. *)
Example detect_result_out_of_range :
  detect (fun q => q) (Some [(0, "person")])
         [[[0 # 1; 0 # 1; 3000000000 # 1; 10 # 1; 1 # 2; 0 # 1]]]
  = Some [mkDetection [0; 0; 3000000000; 10] (1 # 2) "person"] /\
  draw_boxes (fun _ => "0.50") c_int_point
             [mkDetection [0; 0; 3000000000; 10] (1 # 2) "person"] None = None.
Proof. vm_compute. split; reflexivity. Qed.
